(** * go-volley: the withhold / release engine

    A shallow embedding of the two versions of the transport that live in
    the repository:

    - the counter-tracking transport of [src/unnamed/part_000]
      ([Transport], [NewTransport] with its dial tracker, [wrapConn],
      [Fire], [Reset], [Wait], [tryNotify], [StraddleConn] with [Write],
      [waitForFire], [release], [Close]) at the top level of this file;
    - the earlier, simple wrapper of [src/volley.go] ([StraddleConn] with
      [Write] and [release]) in module [Simple].

    Shared state that the Go code updates with [sync/atomic] is a record
    threaded through every operation; a critical section protected by the
    per-connection mutex is one function; goroutine scheduling is a list of
    operations ([Op]) run by [step].  The record also keeps what the Go
    runtime keeps: which channels were closed, how many items sit in the
    notification channel, and the order of the atomic operations. *)

From Stdlib Require Import ZArith List Bool Lia.
From Stdlib Require Import Strings.Byte.
From stdpp Require Import base list.
Import ListNotations.

Local Open Scope Z_scope.

(** ** Machine integers *)

(** [int32] arithmetic of [atomic.AddInt32] and of the conversion
    [int32(want)]: two's complement wrap-around. *)
Definition wrap32 (z : Z) : Z := (z + 2 ^ 31) mod 2 ^ 32 - 2 ^ 31.

Definition in_int32 (z : Z) : Prop := - 2 ^ 31 <= z < 2 ^ 31.

Arguments wrap32 : simpl never.
Arguments List.last : simpl never.
Arguments removelast : simpl never.

(** ** The underlying [net.Conn]

    The connection is supplied by the networking stack.  It is modelled by
    what the wrapper can observe of it: the calls it received, the bytes it
    accepted, and a script of outcomes for the coming [Write] calls. *)

Inductive error : Type :=
| Err (code : nat).

Inductive Outcome : Type :=
| Accept                          (* the whole slice is written, err == nil *)
| Fail (n : nat) (e : error).     (* n bytes are written, then err != nil   *)

Inductive ConnCall : Type :=
| CallWrite (p : list byte)
| CallClose.

Record NetConn : Type := mkNetConn {
  calls : list ConnCall;          (* calls received, oldest first *)
  wire : list byte;               (* bytes accepted so far        *)
  script : list Outcome;          (* outcomes of the next Writes  *)
  closeErr : option error         (* what Close returns           *)
}.

Definition freshConn (sc : list Outcome) : NetConn :=
  mkNetConn [] [] sc None.

(** The outcome of the next [Write]; an exhausted script accepts. *)
Definition nextOutcome (c : NetConn) : Outcome :=
  match script c with
  | [] => Accept
  | o :: _ => o
  end.

(** [c.Write(p)] *)
Definition ConnWrite (p : list byte) (c : NetConn) : NetConn * (nat * option error) :=
  match nextOutcome c with
  | Accept =>
      (mkNetConn (calls c ++ [CallWrite p]) (wire c ++ p) (tl (script c))
         (closeErr c),
       (length p, None))
  | Fail n e =>
      (mkNetConn (calls c ++ [CallWrite p]) (wire c ++ firstn n p)
         (tl (script c)) (closeErr c),
       (Nat.min n (length p), Some e))
  end.

(** [c.Close()]. *)
Definition ConnClose (c : NetConn) : NetConn * option error :=
  (mkNetConn (calls c ++ [CallClose]) (wire c) (script c) (closeErr c), closeErr c).

(** The payloads of the [Write] calls a connection received. *)
Fixpoint writesOf (cs : list ConnCall) : list (list byte) :=
  match cs with
  | [] => []
  | CallWrite p :: cs' => p :: writesOf cs'
  | CallClose :: cs' => writesOf cs'
  end.

Definition isCallClose (c : ConnCall) : bool :=
  match c with CallClose => true | CallWrite _ => false end.

(** Has [Close] been called on the underlying connection? *)
Definition connClosed (c : NetConn) : bool := existsb isCallClose (calls c).

(** ** The coordinator: [Transport] *)

Inductive Counter : Type :=
| DialStartCount | DialInflight | AliveCount | HeldCount.

(** Atomic operations on the coordinator, in the order they were issued. *)
Inductive Event : Type :=
| EvAdd (c : Counter) (d : Z)     (* atomic.AddInt32(&t.c, d) *)
| EvNotify                        (* t.tryNotify()            *)
| EvDialFunc (ok : bool).         (* dialFunc() returned      *)

Record Transport : Type := mkTransport {
  dialStartCount : Z;
  dialInflight : Z;
  aliveCount : Z;
  heldCount : Z;
  fired : Z;
  fireChAtom : nat;               (* the channel stored in fireChAtom      *)
  notifyCh : nat;                 (* items buffered in notifyCh (cap. 1)   *)
  chans : nat;                    (* broadcast channels made so far        *)
  closedChs : list nat;           (* close(ch) calls, oldest first         *)
  events : list Event             (* atomic operations, oldest first       *)
}.

Definition getCounter (c : Counter) (t : Transport) : Z :=
  match c with
  | DialStartCount => dialStartCount t
  | DialInflight => dialInflight t
  | AliveCount => aliveCount t
  | HeldCount => heldCount t
  end.

Definition setCounter (c : Counter) (v : Z) (t : Transport) : Transport :=
  match c with
  | DialStartCount =>
      mkTransport v (dialInflight t) (aliveCount t) (heldCount t) (fired t)
        (fireChAtom t) (notifyCh t) (chans t) (closedChs t) (events t)
  | DialInflight =>
      mkTransport (dialStartCount t) v (aliveCount t) (heldCount t) (fired t)
        (fireChAtom t) (notifyCh t) (chans t) (closedChs t) (events t)
  | AliveCount =>
      mkTransport (dialStartCount t) (dialInflight t) v (heldCount t) (fired t)
        (fireChAtom t) (notifyCh t) (chans t) (closedChs t) (events t)
  | HeldCount =>
      mkTransport (dialStartCount t) (dialInflight t) (aliveCount t) v (fired t)
        (fireChAtom t) (notifyCh t) (chans t) (closedChs t) (events t)
  end.

Definition logEvent (e : Event) (t : Transport) : Transport :=
  mkTransport (dialStartCount t) (dialInflight t) (aliveCount t) (heldCount t)
    (fired t) (fireChAtom t) (notifyCh t) (chans t) (closedChs t)
    (events t ++ [e]).

(** [atomic.AddInt32(&t.c, d)] *)
Definition AddInt32 (c : Counter) (d : Z) (t : Transport) : Transport :=
  logEvent (EvAdd c d) (setCounter c (wrap32 (getCounter c t + d)) t).

(** [NewTransport]: zero counters, an open broadcast channel (number 0)
    and an empty notification channel of capacity 1. *)
Definition NewTransport : Transport :=
  mkTransport 0 0 0 0 0 0%nat 0%nat 1%nat [] [].

(** [tryNotify]: non-blocking send on [notifyCh]. *)
Definition tryNotify (t : Transport) : Transport :=
  let t' := logEvent EvNotify t in
  if (notifyCh t <? 1)%nat then
    mkTransport (dialStartCount t') (dialInflight t') (aliveCount t')
      (heldCount t') (fired t') (fireChAtom t') (S (notifyCh t')) (chans t')
      (closedChs t') (events t')
  else t'.

(** [Fire]: compare-and-swap of [fired] from 0 to 1, then [close] of the
    current broadcast channel. *)
Definition Fire (t : Transport) : Transport :=
  if fired t =? 0 then
    mkTransport (dialStartCount t) (dialInflight t) (aliveCount t)
      (heldCount t) 1 (fireChAtom t) (notifyCh t) (chans t)
      (closedChs t ++ [fireChAtom t]) (events t)
  else t.

(** [Reset]: a fresh broadcast channel, the four counters and [fired]
    stored to 0. *)
Definition Reset (t : Transport) : Transport :=
  mkTransport 0 0 0 0 0 (chans t) (notifyCh t) (S (chans t)) (closedChs t)
    (events t).

(** The closure [check] of [Wait].  Its four atomic loads read one state
    [t]: no other goroutine runs between them. *)
Definition check (want : Z) (t : Transport) : bool :=
  let start := dialStartCount t in
  let inflight := dialInflight t in
  let held := heldCount t in
  let alive := aliveCount t in
  if start <? wrap32 want then false
  else if inflight >? 0 then false
  else if alive =? 0 then true
  else held =? alive.

(** What wakes the [select] of [Wait]: the context is done, or an item
    arrives on [notifyCh]; in both cases the counters are then as in [t]. *)
Inductive Wake : Type :=
| CtxDone (t : Transport)
| Notified (t : Transport).

Inductive WaitResult : Type :=
| WaitNil
| WaitTimeout (want start inflight alive held : Z).

(** The slow path of [Wait]; [None] when the wake-ups given are used up
    and the call is still blocked. *)
Fixpoint WaitLoop (want : Z) (wakes : list Wake) : option WaitResult :=
  match wakes with
  | [] => None
  | CtxDone t :: _ =>
      Some (WaitTimeout want (dialStartCount t) (dialInflight t)
              (aliveCount t) (heldCount t))
  | Notified t :: rest =>
      if check want t then Some WaitNil else WaitLoop want rest
  end.

(** [Wait(ctx, want)] called when the coordinator is [t]. *)
Definition Wait (want : Z) (t : Transport) (wakes : list Wake) : option WaitResult :=
  if want <=? 0 then Some WaitNil
  else if check want t then Some WaitNil
  else WaitLoop want wakes.

(** ** The connection wrapper: [StraddleConn] *)

Record StraddleConn : Type := mkStraddleConn {
  Conn : NetConn;                 (* the embedded net.Conn                 *)
  fireCh : nat;                   (* broadcast channel seen at creation    *)
  closeCh : bool;                 (* true once closeCh has been closed     *)
  held : byte;
  hasHeld : bool;
  isCounted : bool;
  listeners : nat                 (* goroutines running waitForFire        *)
}.

Definition setConn (c : NetConn) (sc : StraddleConn) : StraddleConn :=
  mkStraddleConn c (fireCh sc) (closeCh sc) (held sc) (hasHeld sc)
    (isCounted sc) (listeners sc).

Definition setHeld (x : byte) (h : bool) (sc : StraddleConn) : StraddleConn :=
  mkStraddleConn (Conn sc) (fireCh sc) (closeCh sc) x h (isCounted sc)
    (listeners sc).

Definition setHasHeld (h : bool) (sc : StraddleConn) : StraddleConn :=
  setHeld (held sc) h sc.

(** [wrapConn] *)
Definition wrapConn (c : NetConn) (t : Transport) : Transport * StraddleConn :=
  let t1 := AddInt32 AliveCount 1 t in
  let t2 := tryNotify t1 in
  let ch := fireChAtom t2 in
  (t2, mkStraddleConn c ch false x00 false false 0%nat).

(** The helper [trackDial], in the two halves that surround the call of
    [dialFunc]: other goroutines run while the dial is in progress. *)
Definition trackDialBegin (t : Transport) : Transport :=
  AddInt32 DialInflight 1 (AddInt32 DialStartCount 1 t).

Definition trackDialEnd (r : NetConn + error) (t : Transport)
  : Transport * (StraddleConn + error) :=
  let ok := match r with inl _ => true | inr _ => false end in
  let t1 := logEvent (EvDialFunc ok) t in
  let t2 := AddInt32 DialInflight (-1) t1 in
  match r with
  | inr err => (tryNotify t2, inr err)
  | inl conn => let '(t3, sc) := wrapConn conn t2 in (t3, inl sc)
  end.

Definition trackDial (r : NetConn + error) (t : Transport)
  : Transport * (StraddleConn + error) :=
  trackDialEnd r (trackDialBegin t).

(** What [DialContext] / [DialTLSContext] hand back to the HTTP client. *)
Inductive Dialed : Type :=
| DialedRaw (c : NetConn)         (* fast path: the bare connection *)
| DialedWrapped (sc : StraddleConn)
| DialedErr (e : error).

(** [DialContext] and [DialTLSContext]; [r] is what the dialer (and, for
    TLS, the handshake) comes back with. *)
Definition DialContext (r : NetConn + error) (t : Transport) : Transport * Dialed :=
  if fired t =? 1 then
    (t, match r with inl c => DialedRaw c | inr e => DialedErr e end)
  else
    match trackDial r t with
    | (t', inl sc) => (t', DialedWrapped sc)
    | (t', inr e) => (t', DialedErr e)
    end.

(** [sc.Conn.Write(p)] with the result dropped or kept by the caller. *)
Definition connWrite (p : list byte) (sc : StraddleConn)
  : StraddleConn * (nat * option error) :=
  let '(c, r) := ConnWrite p (Conn sc) in (setConn c sc, r).

(** The flush that [release], [Close] and the re-check of [Write] share:
    [if sc.hasHeld { sc.Conn.Write([]byte{sc.held}); sc.hasHeld = false }]. *)
Definition flushHeld (sc : StraddleConn) : StraddleConn :=
  if hasHeld sc then setHasHeld false (fst (connWrite [held sc] sc)) else sc.

(** [Write] from the point where the mutex is held. *)
Definition WriteLocked (b : list byte) (sc : StraddleConn) (t : Transport)
  : StraddleConn * Transport * (nat * option error) :=
  if fired t =? 1 then
    let '(sc', r) := connWrite b (flushHeld sc) in (sc', t, r)
  else
    let payload := (if hasHeld sc then [held sc] else []) ++ b in
    let sc1 := if hasHeld sc then setHasHeld false sc else sc in
    if (length payload =? 0)%nat then (sc1, t, (length b, None))
    else
      let toHold := List.last payload x00 in
      let sc2 := setHeld toHold true sc1 in
      let '(sc3, t3) :=
        if isCounted sc2 then (sc2, t)
        else
          (mkStraddleConn (Conn sc2) (fireCh sc2) (closeCh sc2) (held sc2)
             (hasHeld sc2) true (S (listeners sc2)),
           tryNotify (AddInt32 HeldCount 1 t)) in
      let toSend := removelast payload in
      if (0 <? length toSend)%nat then
        match connWrite toSend sc3 with
        | (sc4, (_, Some err)) => (sc4, t3, (0%nat, Some err))
        | (sc4, (_, None)) => (sc4, t3, (length b, None))
        end
      else (sc3, t3, (length b, None)).

(** [StraddleConn.Write] *)
Definition Write (b : list byte) (sc : StraddleConn) (t : Transport)
  : StraddleConn * Transport * (nat * option error) :=
  if (length b =? 0)%nat then (sc, t, (0%nat, None))
  else if fired t =? 1 then
    let '(sc', r) := connWrite b sc in (sc', t, r)
  else WriteLocked b sc t.

(** [StraddleConn.release] *)
Definition release (sc : StraddleConn) : StraddleConn := flushHeld sc.

(** [StraddleConn.Close] *)
Definition Close (sc : StraddleConn) (t : Transport)
  : StraddleConn * Transport * option error :=
  let '(sc1, t1) :=
    if isCounted sc then
      let t0 := if fired t =? 0 then AddInt32 HeldCount (-1) t else t in
      (mkStraddleConn (Conn sc) (fireCh sc) true (held sc) (hasHeld sc)
         false (listeners sc),
       tryNotify t0)
    else (sc, t) in
  let sc2 := flushHeld sc1 in
  let t2 := tryNotify (AddInt32 AliveCount (-1) t1) in
  let '(c, e) := ConnClose (Conn sc2) in
  (setConn c sc2, t2, e).

(** [StraddleConn.waitForFire], once its [select] can proceed: on the
    [fireCh] case it runs [release], on the [closeCh] case it returns. *)
Definition chanClosed (ch : nat) (t : Transport) : bool :=
  existsb (Nat.eqb ch) (closedChs t).

Definition endListener (sc : StraddleConn) : StraddleConn :=
  mkStraddleConn (Conn sc) (fireCh sc) (closeCh sc) (held sc) (hasHeld sc)
    (isCounted sc) (Nat.pred (listeners sc)).

Definition waitForFire (onFire : bool) (sc : StraddleConn) (t : Transport)
  : StraddleConn :=
  if (listeners sc =? 0)%nat then sc
  else if onFire then
    if chanClosed (fireCh sc) t then endListener (release sc) else sc
  else
    if closeCh sc then endListener sc else sc.

(** ** The simple wrapper of [volley.go] *)

Module Simple.

Record StraddleConn : Type := mkStraddleConn {
  Conn : NetConn;
  held : byte;
  hasHeld : bool
}.

Definition newStraddleConn (c : NetConn) : StraddleConn :=
  mkStraddleConn c x00 false.

Definition connWrite (p : list byte) (sc : StraddleConn)
  : StraddleConn * (nat * option error) :=
  let '(c, r) := ConnWrite p (Conn sc) in
  (mkStraddleConn c (held sc) (hasHeld sc), r).

(** [StraddleConn.Write] *)
Definition Write (b : list byte) (sc : StraddleConn)
  : StraddleConn * (nat * option error) :=
  if (length b =? 0)%nat then (sc, (0%nat, None))
  else
    let payload := (if hasHeld sc then [held sc] else []) ++ b in
    let sc1 := if hasHeld sc then mkStraddleConn (Conn sc) (held sc) false else sc in
    if (length payload =? 0)%nat then (sc1, (length b, None))
    else
      let toHold := List.last payload x00 in
      let sc2 := mkStraddleConn (Conn sc1) toHold true in
      let toSend := removelast payload in
      if (0 <? length toSend)%nat then
        match connWrite toSend sc2 with
        | (sc3, (_, Some err)) => (sc3, (0%nat, Some err))
        | (sc3, (_, None)) => (sc3, (length b, None))
        end
      else (sc2, (length b, None)).

(** [StraddleConn.release] *)
Definition release (sc : StraddleConn) : StraddleConn :=
  if hasHeld sc then
    mkStraddleConn (fst (ConnWrite [held sc] (Conn sc))) (held sc) false
  else sc.

(** A run of [Write] calls on one wrapper, with the results returned. *)
Fixpoint writes (bs : list (list byte)) (sc : StraddleConn)
  : StraddleConn * list (nat * option error) :=
  match bs with
  | [] => (sc, [])
  | b :: bs' =>
      let '(sc1, r) := Write b sc in
      let '(sc2, rs) := writes bs' sc1 in
      (sc2, r :: rs)
  end.

End Simple.

(** The same run of [Write] calls on the counter-tracking wrapper. *)
Fixpoint writes (bs : list (list byte)) (sc : StraddleConn) (t : Transport)
  : StraddleConn * Transport * list (nat * option error) :=
  match bs with
  | [] => (sc, t, [])
  | b :: bs' =>
      let '(sc1, t1, r) := Write b sc t in
      let '(sc2, t2, rs) := writes bs' sc1 t1 in
      (sc2, t2, r :: rs)
  end.

(** ** The whole system and its schedules *)

Record Sys : Type := mkSys {
  coord : Transport;
  wrappers : list StraddleConn;   (* every wrapper made, by number          *)
  dialing : nat                   (* tracked dials between begin and end    *)
}.

Definition initSys : Sys := mkSys NewTransport [] 0%nat.

(** One atomic step of some goroutine.  A dial is two steps, before and
    after [dialFunc]; a dial that finds [fired] set is not tracked and
    returns the bare connection, which leaves the system as it is.
    [OpListen i onFire] is the [select] of a listener of wrapper [i] taking
    its [fireCh] or its [closeCh] case, when that case is ready. *)
Inductive Op : Type :=
| OpDialBegin
| OpDialEnd (r : NetConn + error)
| OpWrite (i : nat) (b : list byte)
| OpFire
| OpClose (i : nat)
| OpListen (i : nat) (onFire : bool)
| OpReset.

Definition step (o : Op) (s : Sys) : Sys :=
  match o with
  | OpDialBegin =>
      if fired (coord s) =? 1 then s
      else mkSys (trackDialBegin (coord s)) (wrappers s) (S (dialing s))
  | OpDialEnd r =>
      match dialing s with
      | O => s
      | S d =>
          match trackDialEnd r (coord s) with
          | (t, inl sc) => mkSys t (wrappers s ++ [sc]) d
          | (t, inr _) => mkSys t (wrappers s) d
          end
      end
  | OpWrite i b =>
      match wrappers s !! i with
      | Some sc =>
          let '(sc', t, _) := Write b sc (coord s) in
          mkSys t (<[i := sc']> (wrappers s)) (dialing s)
      | None => s
      end
  | OpFire => mkSys (Fire (coord s)) (wrappers s) (dialing s)
  | OpClose i =>
      match wrappers s !! i with
      | Some sc =>
          let '(sc', t, _) := Close sc (coord s) in
          mkSys t (<[i := sc']> (wrappers s)) (dialing s)
      | None => s
      end
  | OpListen i onFire =>
      match wrappers s !! i with
      | Some sc =>
          mkSys (coord s) (<[i := waitForFire onFire sc (coord s)]> (wrappers s))
            (dialing s)
      | None => s
      end
  | OpReset => mkSys (Reset (coord s)) (wrappers s) (dialing s)
  end.

Definition run (tr : list Op) (s : Sys) : Sys :=
  fold_left (fun s o => step o s) tr s.

(** The events a step adds to the coordinator's record. *)
Definition emitted (o : Op) (s : Sys) : list Event :=
  skipn (length (events (coord s))) (events (coord (step o s))).

Definition isHeldDecrement (e : Event) : bool :=
  match e with
  | EvAdd HeldCount d => d =? -1
  | _ => false
  end.

(** How often a schedule decrements [heldCount] on behalf of wrapper [i]
    (only [Close] on [i] can). *)
Fixpoint heldDecrements (i : nat) (tr : list Op) (s : Sys) : nat :=
  match tr with
  | [] => 0%nat
  | o :: tr' =>
      ((match o with
        | OpClose j =>
            if (j =? i)%nat then length (List.filter isHeldDecrement (emitted o s))
            else 0
        | _ => 0
        end) + heldDecrements i tr' (step o s))%nat
  end.

(** A step that respects the wrapper's life cycle: the dialer hands over
    an open connection, there is no [Reset] in the middle of a round, and
    no [Write] or [Close] on a wrapper that was closed. *)
Definition wrapperOpen (i : nat) (s : Sys) : bool :=
  match wrappers s !! i with
  | Some sc => negb (connClosed (Conn sc))
  | None => true
  end.

Definition opOk (o : Op) (s : Sys) : bool :=
  match o with
  | OpDialEnd (inl c) => negb (connClosed c)
  | OpWrite i _ => wrapperOpen i s
  | OpClose i => wrapperOpen i s
  | OpReset => false
  | _ => true
  end.

Fixpoint traceOk (tr : list Op) (s : Sys) : bool :=
  match tr with
  | [] => true
  | o :: tr' => opOk o s && traceOk tr' (step o s)
  end.

(** What wrapper [sc] adds to [heldCount], and to [aliveCount]. *)
Definition contribution (sc : StraddleConn) : Z :=
  if isCounted sc then 1 else 0.

Definition liveness (sc : StraddleConn) : Z :=
  if connClosed (Conn sc) then 0 else 1.

Definition sumZ {A : Type} (f : A -> Z) (l : list A) : Z :=
  fold_right (fun a acc => f a + acc) 0 l.

(** Schedules of one round: without [Reset]; and the calls of [Fire] in a
    schedule. *)
Definition isReset (o : Op) : bool :=
  match o with OpReset => true | _ => false end.

Definition isFire (o : Op) : bool :=
  match o with OpFire => true | _ => false end.

Definition oneRound (tr : list Op) : bool := forallb (fun o => negb (isReset o)) tr.

(** ** Scenarios *)

(** A dial that succeeds with a connection that accepts every write. *)
Definition dialOk : list Op := [OpDialBegin; OpDialEnd (inl (freshConn []))].

(** Three connections come alive; two of them write and hold a byte. *)
Definition quorumTrace : list Op :=
  dialOk ++ dialOk ++ dialOk ++ [OpWrite 0 [x61; x62; x63]; OpWrite 1 [x61]].

(** The request of the README's example, [GET / HTTP/1.1] followed by two
    CR LF pairs: 18 bytes. *)
Definition getRequest : list byte :=
  [x47; x45; x54; x20; x2f; x20; x48; x54; x54; x50; x2f; x31; x2e; x31;
   x0d; x0a; x0d; x0a].

(** A wrapper as [wrapConn] makes it, around connection [c]. *)
Definition freshWrapper (c : NetConn) : StraddleConn :=
  snd (wrapConn c NewTransport).

(** The simple and the counter-tracking wrapper agree on what both have:
    the connection, the withheld byte and its flag. *)
Definition sameWrapper (sc0 : Simple.StraddleConn) (sc : StraddleConn) : Prop :=
  Simple.Conn sc0 = Conn sc
  /\ Simple.held sc0 = held sc
  /\ Simple.hasHeld sc0 = hasHeld sc.

(** One connection wrote [abc] and holds [c]; then [Fire] was called and
    the listener goroutine has not run yet. *)
Definition firedPending : Sys :=
  run (dialOk ++ [OpWrite 0 [x61; x62; x63]; OpFire]) initSys.

(** Where the byte [x], withheld by a wrapper whose connection had by then
    received the calls [cs], is later on: still withheld and untouched, or
    handed to the connection by one [Write] of that single byte, after
    which the connection saw nothing but [Close] calls. *)
Inductive Delivery (x : byte) (cs : list ConnCall) (sc : StraddleConn) : Prop :=
| StillHeld :
    hasHeld sc = true -> held sc = x -> calls (Conn sc) = cs ->
    Delivery x cs sc
| Flushed (k : nat) :
    hasHeld sc = false ->
    calls (Conn sc) = cs ++ CallWrite [x] :: repeat CallClose k ->
    Delivery x cs sc.

Definition isWriteOn (i : nat) (o : Op) : bool :=
  match o with OpWrite j _ => (j =? i)%nat | _ => false end.

Definition isCloseOn (i : nat) (o : Op) : bool :=
  match o with OpClose j => (j =? i)%nat | _ => false end.

(** What a step makes of wrapper number [i], which is [sc] before it. *)
Definition stepWrapper (o : Op) (i : nat) (sc : StraddleConn) (t : Transport)
  : StraddleConn :=
  match o with
  | OpWrite j b => if (j =? i)%nat then fst (fst (Write b sc t)) else sc
  | OpClose j => if (j =? i)%nat then fst (fst (Close sc t)) else sc
  | OpListen j f => if (j =? i)%nat then waitForFire f sc t else sc
  | _ => sc
  end.

(** The counters account for the wrappers: [heldCount] is the number of
    counted wrappers, [aliveCount] the number of wrappers not closed, and a
    counted wrapper is not closed. *)
Definition Accounted (s : Sys) : Prop :=
  heldCount (coord s) = sumZ contribution (wrappers s)
  /\ aliveCount (coord s) = sumZ liveness (wrappers s)
  /\ Forall (fun sc => isCounted sc = true -> connClosed (Conn sc) = false)
       (wrappers s).

(** A wrapper is closed and then written to. *)
Definition useAfterClose : list Op :=
  dialOk ++ [OpClose 0; OpWrite 0 [x61]].

(** Two wrappers, one of them holding a byte; the other is closed twice. *)
Definition closedTwice : list Op :=
  dialOk ++ dialOk ++ [OpWrite 0 [x61]; OpClose 1; OpClose 1].

(** A wrapper is counted, closed, written to again and closed again. *)
Definition recounted : list Op :=
  dialOk ++ [OpWrite 0 [x61]; OpClose 0; OpWrite 0 [x62]; OpClose 0].

(** In a schedule, wrapper [i] is never written to once it is closed. *)
Fixpoint noWriteAfterClose (i : nat) (tr : list Op) (s : Sys) : bool :=
  match tr with
  | [] => true
  | o :: tr' =>
      (if isWriteOn i o then wrapperOpen i s else true)
      && noWriteAfterClose i tr' (step o s)
  end.

(** ** Further scenarios *)

(** [k] dials in a row, each of which fails with [e]. *)
Fixpoint failedDials (e : error) (k : nat) : list Op :=
  match k with
  | O => []
  | S k' => OpDialBegin :: OpDialEnd (inr e) :: failedDials e k'
  end.

(** A wake-up that ends [Wait]: the context is done, or a notification
    that finds [check] true. *)
Definition decisive (want : Z) (w : Wake) : bool :=
  match w with
  | CtxDone _ => true
  | Notified t => check want t
  end.

(** What is still to reach the wire: the withheld byte, if any. *)
Definition pending (sc : StraddleConn) : list byte :=
  if hasHeld sc then [held sc] else [].

(** The broadcast channels are in order: none was closed twice, every
    channel closed or current was made, and the current channel of an
    un-fired round is open. *)
Definition ChannelsOk (t : Transport) : Prop :=
  List.NoDup (closedChs t)
  /\ (forall ch, In ch (closedChs t) -> (ch < chans t)%nat)
  /\ (fireChAtom t < chans t)%nat
  /\ (fired t = 0 -> ~ In (fireChAtom t) (closedChs t)).

(** The coordinator after a step that is neither [Fire] nor [Reset]: the
    one before it, through some of the counter updates and notifications
    of the operation. *)
Inductive Touched (t : Transport) : Transport -> Prop :=
| TouchedNone : Touched t t
| TouchedAdd c d t' : Touched t t' -> Touched t (AddInt32 c d t')
| TouchedNotify t' : Touched t t' -> Touched t (tryNotify t')
| TouchedLog e t' : Touched t t' -> Touched t (logEvent e t').

(** ** The server name of a TLS dial *)

(** [strings.LastIndex(s, sep)] for a separator of one byte: the index of
    its last occurrence, or -1. *)
Fixpoint LastIndex (sep : byte) (s : list byte) : Z :=
  match s with
  | [] => -1
  | x :: s' =>
      let r := LastIndex sep s' in
      if r >=? 0 then r + 1
      else if Byte.eqb x sep then 0 else -1
  end.

(** The server name the TLS dial of [src/unnamed/part_000] puts in its
    configuration: the configured one unless it is empty, else [addr] up to
    its last colon when that colon is not the first byte. *)
Definition tlsServerName (configured addr : list byte) : list byte :=
  match configured with
  | [] =>
      let colon := LastIndex x3a addr in
      if colon >? 0 then firstn (Z.to_nat colon) addr else addr
  | _ => configured
  end.

(** ** The registry of [src/volley.go]

    [Transport] with its slice [conns], [register], [unregister], [Fire],
    the dial, and [StraddleConn.Close].  Wrappers are shared by pointer:
    they live in [heap], and [conns] holds their addresses.  [Fire] only
    starts its release goroutines: [spawned] holds the addresses whose
    goroutine was started and has not run yet. *)

Module Registry.

Record Entry : Type := mkEntry {
  conn : Simple.StraddleConn;
  owner : bool                    (* owner != nil *)
}.

Record Transport : Type := mkTransport {
  conns : list nat;
  heap : list Entry;
  spawned : list nat              (* go conn.release() started, not yet run *)
}.

Definition NewTransport : Transport := mkTransport [] [] [].

(** [register] *)
Definition register (c : nat) (t : Transport) : Transport :=
  mkTransport (conns t ++ [c])
    (alter (fun e => mkEntry (conn e) true) c (heap t))
    (spawned t).

(** The loop of [unregister]: the first element equal to [c] is cut out. *)
Fixpoint removeFirst (c : nat) (l : list nat) : list nat :=
  match l with
  | [] => []
  | x :: l' => if (x =? c)%nat then l' else x :: removeFirst c l'
  end.

(** [unregister] *)
Definition unregister (c : nat) (t : Transport) : Transport :=
  mkTransport (removeFirst c (conns t)) (heap t) (spawned t).

(** A dial that succeeds:
    [registerStraddleConn(newStraddleConn(rawConn), t)]. *)
Definition dial (raw : NetConn) (t : Transport) : Transport * nat :=
  let c := length (heap t) in
  (register c
     (mkTransport (conns t)
        (heap t ++ [mkEntry (Simple.newStraddleConn raw) false])
        (spawned t)),
   c).

(** [conn.release()] on the wrapper at address [c]. *)
Definition releaseAt (c : nat) (h : list Entry) : list Entry :=
  alter (fun e => mkEntry (Simple.release (conn e)) (owner e)) c h.

(** Release goroutines for the addresses [l], run one after the other in
    that order. *)
Definition releaseAll (l : list nat) (h : list Entry) : list Entry :=
  fold_left (fun h c => releaseAt c h) l h.

(** [Fire]: the slice is taken and replaced by an empty one, and one
    release goroutine is started for each address taken.  [Fire] returns
    without waiting for them. *)
Definition Fire (t : Transport) : Transport :=
  mkTransport [] (heap t) (spawned t ++ conns t).

(** The scheduler runs the started release goroutine number [k]. *)
Definition runRelease (k : nat) (t : Transport) : Transport :=
  match spawned t !! k with
  | Some c => mkTransport (conns t) (releaseAt c (heap t)) (delete k (spawned t))
  | None => t
  end.

(** Every started release goroutine has run. *)
Definition settle (t : Transport) : Transport :=
  mkTransport (conns t) (releaseAll (spawned t) (heap t)) [].

(** [Write] on the wrapper at address [c]. *)
Definition Write (c : nat) (b : list byte) (t : Transport)
  : Transport * (nat * option error) :=
  match heap t !! c with
  | Some e =>
      let '(sc', r) := Simple.Write b (conn e) in
      (mkTransport (conns t) (<[c := mkEntry sc' (owner e)]> (heap t))
         (spawned t),
       r)
  | None => (t, (0%nat, None))
  end.

(** [StraddleConn.Close] on the wrapper at address [c]: the flush (the
    body of [release], with the error dropped), the connection's [Close],
    then [unregister] when the wrapper has an owner. *)
Definition Close (c : nat) (t : Transport) : Transport * option error :=
  match heap t !! c with
  | Some e =>
      let sc1 := Simple.release (conn e) in
      let '(nc, err) := ConnClose (Simple.Conn sc1) in
      let sc2 := Simple.mkStraddleConn nc (Simple.held sc1) (Simple.hasHeld sc1) in
      let t1 := mkTransport (conns t) (<[c := mkEntry sc2 (owner e)]> (heap t))
                  (spawned t) in
      (if owner e then unregister c t1 else t1, err)
  | None => (t, None)
  end.

(** [strings.Split(s, sep)[0]] for a separator of one byte: [s] up to its
    first occurrence. *)
Fixpoint beforeFirst (sep : byte) (s : list byte) : list byte :=
  match s with
  | [] => []
  | x :: s' => if Byte.eqb x sep then [] else x :: beforeFirst sep s'
  end.

(** The server name of the TLS dial of [src/volley.go]. *)
Definition tlsServerName (configured addr : list byte) : list byte :=
  match configured with
  | [] => beforeFirst x3a addr
  | _ => configured
  end.

End Registry.

(** A wrapper is wired to the broadcast channel [ch]: its [fireCh] is
    [ch]; its [closeCh] is closed only once its connection is; a byte is
    withheld only by a counted wrapper; and a counted wrapper has its
    listener goroutine running, its [closeCh] open and its connection
    open. *)
Definition Listening (ch : nat) (sc : StraddleConn) : Prop :=
  fireCh sc = ch
  /\ (closeCh sc = true -> connClosed (Conn sc) = true)
  /\ (hasHeld sc = true -> isCounted sc = true)
  /\ (isCounted sc = true ->
      (0 < listeners sc)%nat /\ closeCh sc = false
      /\ connClosed (Conn sc) = false).

(** * Properties *)

Arguments Write : simpl never.
Arguments Close : simpl never.
Arguments waitForFire : simpl never.
Arguments trackDialEnd : simpl never.

(** ** Machine arithmetic *)

Lemma wrap32_id (z : Z) : in_int32 z -> wrap32 z = z.
Proof.
  unfold in_int32, wrap32. intros Hz.
  rewrite Z.mod_small; lia.
Qed.

Lemma wrap32_range (z : Z) : in_int32 (wrap32 z).
Proof.
  unfold in_int32, wrap32.
  pose proof (Z.mod_pos_bound (z + 2 ^ 31) (2 ^ 32) ltac:(lia)). lia.
Qed.

Lemma wrap32_succ_pred (z : Z) : in_int32 z -> wrap32 (wrap32 (z + 1) - 1) = z.
Proof.
  intros Hz. unfold in_int32 in Hz.
  destruct (Z.eq_dec z (2 ^ 31 - 1)) as [-> | Hne].
  - reflexivity.
  - rewrite (wrap32_id (z + 1)) by (unfold in_int32; lia).
    replace (z + 1 - 1) with z by lia.
    apply wrap32_id. unfold in_int32. lia.
Qed.

(** Case analysis on every branch the code takes. *)
Ltac break_branches :=
  repeat (simpl;
          match goal with
          | |- context [if ?c then _ else _] =>
              lazymatch c with
              | context [if _ then _ else _] => fail
              | context [match _ with _ => _ end] => fail
              | _ => destruct c eqn:?
              end
          | |- context [match ?x with _ => _ end] =>
              lazymatch x with
              | context [if _ then _ else _] => fail
              | context [match _ with _ => _ end] => fail
              | _ =>
                  lazymatch type of x with
                  | option _ => destruct x eqn:?
                  | sum _ _ => destruct x eqn:?
                  | prod _ _ => destruct x eqn:?
                  | bool => destruct x eqn:?
                  | _ => fail
                  end
              end
          end);
  simpl; auto.

(** ** The coordinator *)

Lemma run_app (tr1 tr2 : list Op) (s : Sys) :
  run (tr1 ++ tr2) s = run tr2 (run tr1 s).
Proof. unfold run. apply fold_left_app. Qed.

Lemma run_cons (o : Op) (tr : list Op) (s : Sys) :
  run (o :: tr) s = run tr (step o s).
Proof. reflexivity. Qed.

Lemma Fire_fired (t : Transport) : fired t = 0 -> fired (Fire t) = 1.
Proof. intros H. unfold Fire. rewrite H. reflexivity. Qed.

Lemma Fire_noop (t : Transport) : fired t <> 0 -> Fire t = t.
Proof.
  intros H. unfold Fire. destruct (Z.eqb_spec (fired t) 0); congruence.
Qed.

(** Only [Fire] and [Reset] touch [fired] and the broadcast channels. *)
Lemma step_signal (o : Op) (s : Sys) :
  isReset o = false -> isFire o = false ->
  fired (coord (step o s)) = fired (coord s)
  /\ closedChs (coord (step o s)) = closedChs (coord s)
  /\ fireChAtom (coord (step o s)) = fireChAtom (coord s).
Proof.
  intros HR HF.
  destruct o as [ | r | i b | | i | i f | ]; simpl in *; try discriminate;
    try (destruct (dialing s); [auto|]);
    unfold Write, WriteLocked, Close, trackDialEnd, wrapConn, tryNotify;
    break_branches.
Qed.

Lemma round_signal (tr : list Op) (s : Sys) :
  oneRound tr = true ->
  let fires := (fired (coord s) =? 0) && existsb isFire tr in
  closedChs (coord (run tr s))
    = closedChs (coord s) ++ (if fires then [fireChAtom (coord s)] else [])
  /\ fired (coord (run tr s)) = (if fires then 1 else fired (coord s))
  /\ fireChAtom (coord (run tr s)) = fireChAtom (coord s).
Proof.
  revert s. induction tr as [|o tr IH]; intros s Hr; simpl in Hr.
  - simpl. rewrite andb_false_r. rewrite app_nil_r. auto.
  - apply andb_prop in Hr as [Ho Hr]. apply negb_true_iff in Ho.
    rewrite run_cons. specialize (IH (step o s) Hr). simpl in IH.
    destruct IH as (IH1 & IH2 & IH3). simpl.
    destruct (isFire o) eqn:HF.
    + destruct o; try discriminate. simpl in *.
      rewrite IH1, IH2, IH3. clear IH1 IH2 IH3.
      unfold Fire. destruct (fired (coord s) =? 0) eqn:Hf; simpl.
      * rewrite app_nil_r. auto.
      * rewrite Hf. simpl. auto.
    + destruct (step_signal o s Ho HF) as (E1 & E2 & E3).
      rewrite IH1, IH2, IH3, E1, E2, E3. simpl. auto.
Qed.

(** C4. [Fire] moves [fired] from 0 to 1 and closes the current broadcast
    channel, once; a call that finds [fired] set changes nothing; two calls
    are one call; and in any schedule of one round (no [Reset]) the channel
    of that round is closed once if the round is un-fired and [Fire] is
    called at all, however often it is called, and no other channel is
    closed. *)
Theorem Fire_once_per_round (t : Transport) :
  (fired t = 0 ->
     Fire t = mkTransport (dialStartCount t) (dialInflight t) (aliveCount t)
                (heldCount t) 1 (fireChAtom t) (notifyCh t) (chans t)
                (closedChs t ++ [fireChAtom t]) (events t))
  /\ (fired t <> 0 -> Fire t = t)
  /\ Fire (Fire t) = Fire t
  /\ (forall (tr : list Op) (s : Sys),
        coord s = t -> oneRound tr = true ->
        closedChs (coord (run tr s))
          = closedChs t ++
              (if (fired t =? 0) && existsb isFire tr then [fireChAtom t] else [])
        /\ fired (coord (run tr s))
          = (if (fired t =? 0) && existsb isFire tr then 1 else fired t)).
Proof.
  split; [|split; [|split]].
  - intros H. unfold Fire. rewrite H. reflexivity.
  - apply Fire_noop.
  - destruct (Z.eq_dec (fired t) 0) as [H|H].
    + apply Fire_noop. rewrite (Fire_fired t H). discriminate.
    + rewrite (Fire_noop t H). apply Fire_noop, H.
  - intros tr s <- Hr. destruct (round_signal tr s Hr) as (H1 & H2 & _).
    split; assumption.
Qed.

Lemma Fire_once_per_round_witness :
  Fire (Fire NewTransport) = Fire NewTransport
  /\ closedChs (Fire NewTransport) = [0%nat]
  /\ closedChs (coord (run [OpFire; OpFire; OpFire] initSys)) = [0%nat].
Proof.
  destruct (Fire_once_per_round NewTransport) as (H1 & _ & H3 & H4).
  split; [exact H3|]. split.
  - rewrite (H1 eq_refl). reflexivity.
  - destruct (H4 [OpFire; OpFire; OpFire] initSys eq_refl eq_refl) as [H _].
    exact H.
Defined.

(** ** Dialing *)

(** C8. A dial made while [fired] is 0 adds 1 to [dialStartCount] and then
    to [dialInflight] before [dialFunc] runs, and takes 1 from
    [dialInflight] once when it returns, whatever the outcome.  A failed
    dial returns the error and no wrapper, leaves [aliveCount] as it was
    and calls [tryNotify]; a successful one adds 1 to [aliveCount], calls
    [tryNotify] and then returns the wrapper.  In both cases a notification
    is pending afterwards. *)
Theorem dial_tracking (r : NetConn + error) (t : Transport) :
  fired t = 0 ->
  let t0 := trackDialBegin t in
  let t' := fst (DialContext r t) in
  let ok := match r with inl _ => true | inr _ => false end in
  events t0 = events t ++ [EvAdd DialStartCount 1; EvAdd DialInflight 1]
  /\ dialStartCount t0 = wrap32 (dialStartCount t + 1)
  /\ dialInflight t0 = wrap32 (dialInflight t + 1)
  /\ events t'
     = events t0 ++ [EvDialFunc ok; EvAdd DialInflight (-1)]
         ++ (if ok then [EvAdd AliveCount 1; EvNotify] else [EvNotify])
  /\ dialStartCount t' = wrap32 (dialStartCount t + 1)
  /\ dialInflight t' = wrap32 (wrap32 (dialInflight t + 1) - 1)
  /\ (in_int32 (dialInflight t) -> dialInflight t' = dialInflight t)
  /\ notifyCh t' = Nat.max 1 (notifyCh t)
  /\ heldCount t' = heldCount t
  /\ fired t' = fired t
  /\ match r with
     | inr e =>
         snd (DialContext r t) = DialedErr e
         /\ aliveCount t' = aliveCount t
     | inl c =>
         snd (DialContext r t)
           = DialedWrapped (mkStraddleConn c (fireChAtom t) false x00 false false 0)
         /\ aliveCount t' = wrap32 (aliveCount t + 1)
     end.
Proof.
  intros Hf. unfold DialContext. rewrite Hf. simpl.
  unfold trackDial, trackDialEnd, wrapConn, trackDialBegin, tryNotify.
  destruct r as [c | e]; simpl;
    destruct (Nat.ltb_spec (notifyCh t) 1) as [Hn | Hn]; simpl;
    rewrite <- ?app_assoc; simpl;
    repeat split; try reflexivity; try lia;
    try (intros Hr; apply wrap32_succ_pred, Hr).
Qed.

Lemma dial_tracking_witness :
  fired NewTransport = 0
  /\ dialInflight (fst (DialContext (inr (Err 7)) NewTransport)) = 0
  /\ snd (DialContext (inr (Err 7)) NewTransport) = DialedErr (Err 7).
Proof.
  split; [reflexivity|].
  destruct (dial_tracking (inr (Err 7)) NewTransport eq_refl)
    as (_ & _ & _ & _ & _ & _ & H & _ & _ & _ & He & _).
  split; [apply H; unfold in_int32; simpl; lia | exact He].
Defined.

(** ** Waiting *)

Lemma WaitLoop_blocked (want : Z) (t : Transport) (n : nat) (rest : list Wake) :
  check want t = false ->
  WaitLoop want (repeat (Notified t) n ++ rest) = WaitLoop want rest.
Proof.
  intros Hc. induction n as [|n IH]; simpl; [reflexivity|].
  rewrite Hc. exact IH.
Qed.

(** C1, evaluated where the code leaves the claim.  Three dials have
    settled and all three connections are alive; two of them hold a byte.
    With [want = 2] the claim has [Wait] return nil (started 3 >= 2,
    nothing in flight, held 2 >= 2).  The code's [check] is false there,
    so [Wait] stays blocked through any number of notifications and ends
    with the timeout error when the context is done. *)
Theorem Wait_blocks_at_quorum :
  let t := coord (run quorumTrace initSys) in
  (dialStartCount t = 3 /\ dialInflight t = 0 /\ heldCount t = 2
   /\ aliveCount t = 3 /\ fired t = 0)
  /\ check 2 t = false
  /\ (forall n, Wait 2 t (repeat (Notified t) n) = None)
  /\ (forall n, Wait 2 t (repeat (Notified t) n ++ [CtxDone t])
               = Some (WaitTimeout 2 3 0 3 2)).
Proof.
  set (t := coord (run quorumTrace initSys)).
  assert (Hc : check 2 t = false) by (vm_compute; reflexivity).
  split; [vm_compute; repeat split; reflexivity|].
  split; [exact Hc|].
  split; intros n; unfold Wait; rewrite Hc; simpl.
  - rewrite <- (app_nil_r (repeat _ n)).
    rewrite (WaitLoop_blocked 2 t n [] Hc). reflexivity.
  - rewrite (WaitLoop_blocked 2 t n _ Hc). vm_compute. reflexivity.
Qed.

(** ** Writing *)

Lemma payload_nonempty (h : list byte) (b : list byte) :
  b <> [] -> (length (h ++ b) =? 0)%nat = false.
Proof.
  intros Hb. apply Nat.eqb_neq. rewrite length_app.
  destruct b; [congruence | simpl; lia].
Qed.

Lemma length_nonempty (b : list byte) : b <> [] -> (length b =? 0)%nat = false.
Proof. intros Hb. apply Nat.eqb_neq. destruct b; [congruence | simpl; lia]. Qed.

Lemma payload_last (h b : list byte) :
  b <> [] -> List.last (h ++ b) x00 = List.last b x00.
Proof.
  intros Hb. rewrite (app_removelast_last x00 Hb) at 1.
  rewrite app_assoc. apply List.last_last.
Qed.

Lemma payload_split (p : list byte) :
  p <> [] -> p = removelast p ++ [List.last p x00].
Proof. apply app_removelast_last. Qed.

(** What the buffering branch of [Write] does, in one equation. *)
Lemma Write_buffering_gen (b : list byte) (sc : StraddleConn) (t : Transport) :
  fired t <> 1 -> b <> [] ->
  let payload := (if hasHeld sc then [held sc] else []) ++ b in
  let toSend := removelast payload in
  let scB :=
    mkStraddleConn (Conn sc) (fireCh sc) (closeCh sc) (List.last payload x00)
      true true (if isCounted sc then listeners sc else S (listeners sc)) in
  let tB := if isCounted sc then t else tryNotify (AddInt32 HeldCount 1 t) in
  Write b sc t =
    if (0 <? length toSend)%nat then
      match ConnWrite toSend (Conn sc) with
      | (c, (_, Some err)) => (setConn c scB, tB, (0%nat, Some err))
      | (c, (_, None)) => (setConn c scB, tB, (length b, None))
      end
    else (scB, tB, (length b, None)).
Proof.
  intros Hf Hb. apply Z.eqb_neq in Hf. unfold Write, WriteLocked.
  rewrite (length_nonempty b Hb), Hf. simpl.
  rewrite (payload_nonempty _ b Hb).
  destruct sc as [c fc cc h hh ic ls]; simpl.
  unfold connWrite, setConn, setHeld, setHasHeld; simpl.
  destruct hh, ic; simpl;
    destruct (0 <? length _)%nat; try reflexivity;
    destruct (ConnWrite _ c) as [c' [n [e|]]]; reflexivity.
Qed.

Lemma Write_buffering (b : list byte) (sc : StraddleConn) (t : Transport) :
  fired t = 0 -> b <> [] ->
  let payload := (if hasHeld sc then [held sc] else []) ++ b in
  let toSend := removelast payload in
  let scB :=
    mkStraddleConn (Conn sc) (fireCh sc) (closeCh sc) (List.last payload x00)
      true true (if isCounted sc then listeners sc else S (listeners sc)) in
  let tB := if isCounted sc then t else tryNotify (AddInt32 HeldCount 1 t) in
  Write b sc t =
    if (0 <? length toSend)%nat then
      match ConnWrite toSend (Conn sc) with
      | (c, (_, Some err)) => (setConn c scB, tB, (0%nat, Some err))
      | (c, (_, None)) => (setConn c scB, tB, (length b, None))
      end
    else (scB, tB, (length b, None)).
Proof.
  intros Hf. apply Write_buffering_gen. rewrite Hf. discriminate.
Qed.

(** The same for the wrapper of [volley.go]. *)
Lemma Simple_Write_buffering (b : list byte) (sc : Simple.StraddleConn) :
  b <> [] ->
  let payload := (if Simple.hasHeld sc then [Simple.held sc] else []) ++ b in
  let toSend := removelast payload in
  Simple.Write b sc =
    if (0 <? length toSend)%nat then
      match ConnWrite toSend (Simple.Conn sc) with
      | (c, (_, Some err)) =>
          (Simple.mkStraddleConn c (List.last payload x00) true, (0%nat, Some err))
      | (c, (_, None)) =>
          (Simple.mkStraddleConn c (List.last payload x00) true, (length b, None))
      end
    else (Simple.mkStraddleConn (Simple.Conn sc) (List.last payload x00) true,
          (length b, None)).
Proof.
  intros Hb. unfold Simple.Write.
  rewrite (length_nonempty b Hb). simpl.
  rewrite (payload_nonempty _ b Hb).
  destruct sc as [c h hh]; simpl. unfold Simple.connWrite; simpl.
  destruct hh; simpl;
    destruct (0 <? length _)%nat; try reflexivity;
    destruct (ConnWrite _ c) as [c' [n [e|]]]; reflexivity.
Qed.

Lemma removelast_held (h : byte) (b : list byte) :
  b <> [] -> removelast ([h] ++ b) = h :: removelast b.
Proof. intros Hb. destruct b; [congruence | reflexivity]. Qed.

Lemma tryNotify_fired (t : Transport) : fired (tryNotify t) = fired t.
Proof. unfold tryNotify. destruct (notifyCh t <? 1)%nat; reflexivity. Qed.

Lemma tryNotify_heldCount (t : Transport) : heldCount (tryNotify t) = heldCount t.
Proof. unfold tryNotify. destruct (notifyCh t <? 1)%nat; reflexivity. Qed.

Lemma tryNotify_aliveCount (t : Transport) : aliveCount (tryNotify t) = aliveCount t.
Proof. unfold tryNotify. destruct (notifyCh t <? 1)%nat; reflexivity. Qed.

Lemma tryNotify_events (t : Transport) : events (tryNotify t) = events t ++ [EvNotify].
Proof. unfold tryNotify. destruct (notifyCh t <? 1)%nat; reflexivity. Qed.

(** One [Write] on the two wrappers, started from matching states while
    the coordinator is un-fired. *)
Lemma Write_simulates (b : list byte) (sc0 : Simple.StraddleConn)
      (sc : StraddleConn) (t : Transport) :
  fired t = 0 -> sameWrapper sc0 sc ->
  sameWrapper (fst (Simple.Write b sc0)) (fst (fst (Write b sc t)))
  /\ snd (Simple.Write b sc0) = snd (Write b sc t)
  /\ fired (snd (fst (Write b sc t))) = 0.
Proof.
  intros Hf (Hc & Hh & Hhh).
  destruct b as [|x b'].
  { simpl. unfold sameWrapper. auto. }
  assert (Hb : x :: b' <> []) by discriminate.
  rewrite (Simple_Write_buffering _ sc0 Hb), (Write_buffering _ sc t Hf Hb).
  rewrite Hc, Hh, Hhh. cbv zeta.
  assert (HtB : fired (if isCounted sc then t
                       else tryNotify (AddInt32 HeldCount 1 t)) = 0).
  { destruct (isCounted sc); [exact Hf|]. rewrite tryNotify_fired. exact Hf. }
  destruct (0 <? length _)%nat.
  - destruct (ConnWrite _ (Conn sc)) as [c' [n [e|]]]; simpl;
      unfold sameWrapper; simpl; auto.
  - simpl. unfold sameWrapper. simpl. auto.
Qed.

(** C9. For every run of [Write] calls made while the coordinator is
    un-fired (and with no [Close] in between), the wrapper of [volley.go]
    and the counter-tracking wrapper, started from matching states, give
    the underlying connection the same calls and bytes, end with the same
    withheld byte and [hasHeld] flag, and return the same results. *)
Theorem writes_equivalent (bs : list (list byte)) (sc0 : Simple.StraddleConn)
        (sc : StraddleConn) (t : Transport) :
  fired t = 0 -> sameWrapper sc0 sc ->
  sameWrapper (fst (Simple.writes bs sc0)) (fst (fst (writes bs sc t)))
  /\ snd (Simple.writes bs sc0) = snd (writes bs sc t)
  /\ fired (snd (fst (writes bs sc t))) = 0.
Proof.
  revert sc0 sc t. induction bs as [|b bs IH]; intros sc0 sc t Hf Hs.
  - simpl. auto.
  - simpl.
    destruct (Write_simulates b sc0 sc t Hf Hs) as (Hs1 & Hr1 & Hf1).
    destruct (Simple.Write b sc0) as [sc0' r0].
    destruct (Write b sc t) as [[sc' t'] r]. simpl in Hs1, Hr1, Hf1.
    destruct (IH sc0' sc' t' Hf1 Hs1) as (Hs2 & Hr2 & Hf2).
    destruct (Simple.writes bs sc0') as [sc0'' rs0].
    destruct (writes bs sc' t') as [[sc'' t''] rs]. simpl in *.
    subst. auto.
Qed.

Lemma writes_equivalent_witness :
  let bs := [getRequest; []; [x61]; [x62; x63]] in
  let c := freshConn [Accept; Fail 1 (Err 3)] in
  (fired NewTransport = 0 /\ sameWrapper (Simple.newStraddleConn c) (freshWrapper c))
  /\ snd (Simple.writes bs (Simple.newStraddleConn c))
     = snd (writes bs (freshWrapper c) NewTransport).
Proof.
  intros bs c.
  assert (Hs : sameWrapper (Simple.newStraddleConn c) (freshWrapper c))
    by (repeat split; reflexivity).
  split; [split; [reflexivity | exact Hs]|].
  exact (proj1 (proj2 (writes_equivalent bs (Simple.newStraddleConn c)
                         (freshWrapper c) NewTransport eq_refl Hs))).
Defined.

Lemma ConnWrite_calls (p : list byte) (c : NetConn) :
  calls (fst (ConnWrite p c)) = calls c ++ [CallWrite p].
Proof. unfold ConnWrite. destruct (nextOutcome c); reflexivity. Qed.

(** The buffering branch of [Write], by what it leaves behind. *)
Lemma Write_buffering_spec (b : list byte) (sc : StraddleConn) (t : Transport) :
  fired t = 0 -> b <> [] ->
  let payload := (if hasHeld sc then [held sc] else []) ++ b in
  let toSend := removelast payload in
  let sc' := fst (fst (Write b sc t)) in
  let res := snd (Write b sc t) in
  payload = toSend ++ [held sc']
  /\ hasHeld sc' = true
  /\ held sc' = List.last b x00
  /\ calls (Conn sc')
     = calls (Conn sc) ++ (if (0 <? length toSend)%nat then [CallWrite toSend] else [])
  /\ wire (Conn sc')
     = wire (Conn sc) ++ (match nextOutcome (Conn sc) with
                          | Accept => toSend
                          | Fail n _ => firstn n toSend
                          end)
  /\ res = (match nextOutcome (Conn sc) with
            | Accept => (length b, None)
            | Fail _ e =>
                if (0 <? length toSend)%nat then (0%nat, Some e)
                else (length b, None)
            end)
  /\ (forall sc0 : Simple.StraddleConn,
        sameWrapper sc0 sc ->
        sameWrapper (fst (Simple.Write b sc0)) sc'
        /\ snd (Simple.Write b sc0) = res).
Proof.
  intros Hf Hb payload toSend sc' res.
  assert (Hsim : forall sc0 : Simple.StraddleConn,
             sameWrapper sc0 sc ->
             sameWrapper (fst (Simple.Write b sc0)) sc'
             /\ snd (Simple.Write b sc0) = res).
  { intros sc0 Hs. destruct (Write_simulates b sc0 sc t Hf Hs) as (H1 & H2 & _).
    split; assumption. }
  pose proof (Write_buffering b sc t Hf Hb) as HW. cbv zeta in HW.
  fold payload in HW. fold toSend in HW.
  assert (Hlast : List.last payload x00 = List.last b x00)
    by (apply payload_last, Hb).
  assert (Hsplit : payload = toSend ++ [List.last payload x00]).
  { apply payload_split. unfold payload. intros H. apply app_eq_nil in H. tauto. }
  clearbody toSend payload.
  revert Hsim. subst sc' res. rewrite HW. clear HW. intros Hsim.
  destruct (0 <? length toSend)%nat eqn:Hlen.
  - revert Hsim. unfold ConnWrite.
    destruct (nextOutcome (Conn sc)) as [|n e]; simpl; intros Hsim;
      repeat (split; [first [reflexivity | assumption] |]);
      exact Hsim.
  - assert (HtS : toSend = []).
    { apply Nat.ltb_ge in Hlen. destruct toSend; [reflexivity | simpl in Hlen; lia]. }
    subst toSend. revert Hsim. simpl.
    destruct (nextOutcome (Conn sc)); rewrite ?firstn_nil, ?app_nil_r; intros Hsim;
      repeat (split; [first [reflexivity | assumption] |]);
      exact Hsim.
Qed.

(** C3, as amended.  For every non-empty [b] written while the coordinator
    is un-fired, [Write] forms the payload (the withheld byte, if any, then
    [b]), hands all of it but the last byte to the connection's [Write]
    (no call when that part is empty), keeps the last byte as the new
    withheld byte, and returns [(len(b), nil)] unless that write fails, in
    which case it returns [(0, err)].  The wrapper of [volley.go] does the
    same. *)
Theorem Write_withholds_last_byte (b : list byte) (sc : StraddleConn) (t : Transport) :
  fired t = 0 -> b <> [] ->
  let payload := (if hasHeld sc then [held sc] else []) ++ b in
  let toSend := removelast payload in
  let sc' := fst (fst (Write b sc t)) in
  let res := snd (Write b sc t) in
  payload = toSend ++ [held sc']
  /\ hasHeld sc' = true
  /\ held sc' = List.last b x00
  /\ calls (Conn sc')
     = calls (Conn sc) ++ (if (0 <? length toSend)%nat then [CallWrite toSend] else [])
  /\ wire (Conn sc')
     = wire (Conn sc) ++ (match nextOutcome (Conn sc) with
                          | Accept => toSend
                          | Fail n _ => firstn n toSend
                          end)
  /\ res = (match nextOutcome (Conn sc) with
            | Accept => (length b, None)
            | Fail _ e =>
                if (0 <? length toSend)%nat then (0%nat, Some e)
                else (length b, None)
            end)
  /\ (forall sc0 : Simple.StraddleConn,
        sameWrapper sc0 sc ->
        sameWrapper (fst (Simple.Write b sc0)) sc'
        /\ snd (Simple.Write b sc0) = res).
Proof. exact (Write_buffering_spec b sc t). Qed.

(** The scenario of the specification: the 18 bytes of the request written
    to a fresh wrapper over a connection that accepts them put 17 bytes on
    the wire, withhold the final line feed and report 18. *)
Lemma Write_withholds_last_byte_witness :
  let sc := freshWrapper (freshConn []) in
  (fired NewTransport = 0 /\ getRequest <> [])
  /\ wire (Conn (fst (fst (Write getRequest sc NewTransport)))) = firstn 17 getRequest
  /\ held (fst (fst (Write getRequest sc NewTransport))) = x0a
  /\ hasHeld (fst (fst (Write getRequest sc NewTransport))) = true
  /\ snd (Write getRequest sc NewTransport) = (18%nat, None).
Proof.
  intros sc.
  assert (Hne : getRequest <> []) by discriminate.
  split; [split; [reflexivity | exact Hne]|].
  destruct (Write_withholds_last_byte getRequest sc NewTransport eq_refl Hne)
    as (_ & Hh & Hb & _ & Hw & Hr & _).
  split; [exact Hw|]. split; [exact Hb|]. split; [exact Hh | exact Hr].
Defined.

(** C3 as stated fails: when the connection's [Write] fails, the call
    returns [(0, err)], not [(len(b), nil)]. *)
Lemma Write_reports_failure :
  let sc := freshWrapper (freshConn [Fail 0 (Err 1)]) in
  fired NewTransport = 0
  /\ [x61; x62] <> []
  /\ snd (Write [x61; x62] sc NewTransport) = (0%nat, Some (Err 1))
  /\ snd (Write [x61; x62] sc NewTransport) <> (length [x61; x62], None).
Proof.
  intros sc. repeat split; try reflexivity; discriminate.
Qed.

(** C10. When the connection's [Write] of the all-but-last bytes fails
    during a buffering [Write], the call returns [(0, err)]; the wrapper
    nevertheless keeps the last byte of the payload (the last byte of [b])
    as its withheld byte with [hasHeld] set, and is counted in [heldCount]
    (which went up by one if it was not counted before).  The byte that was
    withheld before travelled at the head of the failed send and is not put
    back: only the part the connection accepted is on the wire.  The
    wrapper of [volley.go] returns the same and keeps the same byte. *)
Theorem failed_send_keeps_new_byte (b : list byte) (sc : StraddleConn)
        (t : Transport) (n : nat) (e : error) :
  fired t = 0 -> b <> [] ->
  let payload := (if hasHeld sc then [held sc] else []) ++ b in
  let toSend := removelast payload in
  (0 < length toSend)%nat ->
  nextOutcome (Conn sc) = Fail n e ->
  let sc' := fst (fst (Write b sc t)) in
  let t' := snd (fst (Write b sc t)) in
  snd (Write b sc t) = (0%nat, Some e)
  /\ hasHeld sc' = true
  /\ held sc' = List.last b x00
  /\ isCounted sc' = true
  /\ heldCount t' = (if isCounted sc then heldCount t else wrap32 (heldCount t + 1))
  /\ calls (Conn sc') = calls (Conn sc) ++ [CallWrite toSend]
  /\ wire (Conn sc') = wire (Conn sc) ++ firstn n toSend
  /\ (hasHeld sc = true -> toSend = held sc :: removelast b)
  /\ (forall sc0 : Simple.StraddleConn,
        sameWrapper sc0 sc ->
        snd (Simple.Write b sc0) = (0%nat, Some e)
        /\ Simple.hasHeld (fst (Simple.Write b sc0)) = true
        /\ Simple.held (fst (Simple.Write b sc0)) = List.last b x00).
Proof.
  intros Hf Hb payload toSend Hlen Hfail sc' t'.
  destruct (Write_buffering_spec b sc t Hf Hb)
    as (_ & Hh & Hl & Hc & Hw & Hr & Hsim).
  fold payload in Hc, Hw, Hr. fold toSend in Hc, Hw, Hr.
  fold sc' in Hh, Hl, Hc, Hw, Hsim.
  apply Nat.ltb_lt in Hlen. rewrite Hlen in Hc, Hr. rewrite Hfail in Hw, Hr.
  assert (Hcnt : isCounted sc' = true
                 /\ heldCount t'
                    = (if isCounted sc then heldCount t else wrap32 (heldCount t + 1))).
  { subst sc' t'. rewrite (Write_buffering b sc t Hf Hb). cbv zeta.
    fold payload. fold toSend. rewrite Hlen.
    destruct (ConnWrite toSend (Conn sc)) as [c' [k [e'|]]]; simpl;
      (split; [reflexivity|]);
      destruct (isCounted sc); try reflexivity;
      rewrite tryNotify_heldCount; reflexivity. }
  destruct Hcnt as [Hic Hhc].
  repeat (split; [first [assumption | reflexivity] |]).
  split.
  - intros Hhh. unfold toSend, payload. rewrite Hhh.
    apply removelast_held, Hb.
  - intros sc0 Hs. destruct (Hsim sc0 Hs) as [(_ & Hsh & Hshh) Hsr].
    rewrite Hsr, Hr, Hsh, Hshh, Hl, Hh. auto.
Qed.

Lemma failed_send_keeps_new_byte_witness :
  let sc := fst (fst (Write [x61; x62] (freshWrapper (freshConn [Accept; Fail 0 (Err 5)]))
                        NewTransport)) in
  let t := snd (fst (Write [x61; x62] (freshWrapper (freshConn [Accept; Fail 0 (Err 5)]))
                       NewTransport)) in
  (fired t = 0 /\ [x63; x64] <> [] /\ hasHeld sc = true /\ held sc = x62
   /\ nextOutcome (Conn sc) = Fail 0 (Err 5))
  /\ snd (Write [x63; x64] sc t) = (0%nat, Some (Err 5))
  /\ held (fst (fst (Write [x63; x64] sc t))) = x64
  /\ wire (Conn (fst (fst (Write [x63; x64] sc t)))) = [x61]
  /\ heldCount (snd (fst (Write [x63; x64] sc t))) = 1.
Proof.
  intros sc t.
  assert (Hne : [x63; x64] <> []) by discriminate.
  split; [repeat split; try reflexivity; exact Hne|].
  destruct (failed_send_keeps_new_byte [x63; x64] sc t 0 (Err 5) eq_refl Hne
              (le_S 1 1 (le_n 1)) eq_refl)
    as (Hr & _ & Hh & _ & Hc & _ & Hw & _).
  split; [exact Hr|]. split; [exact Hh|]. split; [exact Hw | exact Hc].
Defined.

(** C5, evaluated where the code leaves the claim.  A wrapper wrote [abc]
    and holds [c]; [Fire] has been called and the listener has not run yet.
    A [Write] of [de] now takes the fast path: it hands [de] to the
    connection without flushing [c] first and leaves [hasHeld] set, so the
    listener's [release] puts [c] on the wire after [de].  The re-check
    under the mutex ([WriteLocked]) does flush first. *)
Theorem hot_path_skips_flush :
  exists sc : StraddleConn,
    wrappers firedPending !! 0%nat = Some sc
    /\ fired (coord firedPending) = 1
    /\ hasHeld sc = true /\ held sc = x63
    /\ wire (Conn sc) = [x61; x62]
    /\ snd (Write [x64; x65] sc (coord firedPending)) = (2%nat, None)
    /\ writesOf (calls (Conn (fst (fst (Write [x64; x65] sc (coord firedPending))))))
       = [[x61; x62]; [x64; x65]]
    /\ hasHeld (fst (fst (Write [x64; x65] sc (coord firedPending)))) = true
    /\ wire (Conn (release (fst (fst (Write [x64; x65] sc (coord firedPending))))))
       = [x61; x62; x64; x65; x63]
    /\ writesOf (calls (Conn (fst (fst (WriteLocked [x64; x65] sc (coord firedPending))))))
       = [[x61; x62]; [x63]; [x64; x65]].
Proof.
  eexists. split; [vm_compute; reflexivity|].
  repeat split; vm_compute; reflexivity.
Qed.

(** ** One step of a schedule, seen from one wrapper *)

Lemma step_lookup (o : Op) (s : Sys) (i : nat) (sc : StraddleConn) :
  wrappers s !! i = Some sc ->
  wrappers (step o s) !! i = Some (stepWrapper o i sc (coord s)).
Proof.
  intros Hi. pose proof (lookup_lt_Some _ _ _ Hi) as Hlt.
  destruct o as [ | r | j b | | j | j f | ]; simpl.
  - destruct (fired (coord s) =? 1); simpl; auto.
  - destruct (dialing s); [auto|].
    destruct (trackDialEnd r (coord s)) as [t [sc1 | e]]; simpl; [|auto].
    rewrite lookup_app_l; assumption.
  - destruct (Nat.eqb_spec j i) as [-> | Hne].
    + rewrite Hi. destruct (Write b sc (coord s)) as [[sc' t] r]. simpl.
      apply list_lookup_insert_eq, Hlt.
    + destruct (wrappers s !! j) as [scj|]; [|auto].
      destruct (Write b scj (coord s)) as [[sc' t] r]. simpl.
      rewrite list_lookup_insert_ne; assumption.
  - auto.
  - destruct (Nat.eqb_spec j i) as [-> | Hne].
    + rewrite Hi. destruct (Close sc (coord s)) as [[sc' t] r]. simpl.
      apply list_lookup_insert_eq, Hlt.
    + destruct (wrappers s !! j) as [scj|]; [|auto].
      destruct (Close scj (coord s)) as [[sc' t] r]. simpl.
      rewrite list_lookup_insert_ne; assumption.
  - destruct (Nat.eqb_spec j i) as [-> | Hne].
    + rewrite Hi. simpl. apply list_lookup_insert_eq, Hlt.
    + destruct (wrappers s !! j) as [scj|]; [|auto]. simpl.
      rewrite list_lookup_insert_ne; assumption.
  - auto.
Qed.

(** ** Release and close *)

Lemma flushHeld_effect (sc : StraddleConn) :
  hasHeld (flushHeld sc) = false
  /\ held (flushHeld sc) = held sc
  /\ isCounted (flushHeld sc) = isCounted sc
  /\ closeCh (flushHeld sc) = closeCh sc
  /\ fireCh (flushHeld sc) = fireCh sc
  /\ listeners (flushHeld sc) = listeners sc
  /\ calls (Conn (flushHeld sc))
     = calls (Conn sc) ++ (if hasHeld sc then [CallWrite [held sc]] else []).
Proof.
  unfold flushHeld, connWrite, ConnWrite.
  destruct (hasHeld sc) eqn:Hh; simpl.
  - destruct (nextOutcome (Conn sc)); simpl; repeat split; reflexivity.
  - rewrite app_nil_r. repeat split; auto.
Qed.

Lemma Close_effect (sc : StraddleConn) (t : Transport) :
  let sc' := fst (fst (Close sc t)) in
  let t' := snd (fst (Close sc t)) in
  hasHeld sc' = false
  /\ held sc' = held sc
  /\ isCounted sc' = false
  /\ calls (Conn sc')
     = calls (Conn sc) ++ (if hasHeld sc then [CallWrite [held sc]] else [])
         ++ [CallClose]
  /\ fired t' = fired t
  /\ heldCount t'
     = (if isCounted sc && (fired t =? 0) then wrap32 (heldCount t - 1)
        else heldCount t)
  /\ aliveCount t' = wrap32 (aliveCount t - 1)
  /\ events t'
     = events t
         ++ (if isCounted sc
             then (if fired t =? 0 then [EvAdd HeldCount (-1)] else []) ++ [EvNotify]
             else [])
         ++ [EvAdd AliveCount (-1); EvNotify].
Proof.
  unfold Close.
  destruct (isCounted sc) eqn:Hic.
  - match goal with
    | |- context [flushHeld ?x] =>
        destruct (flushHeld_effect x) as (F1 & F2 & F3 & _ & _ & _ & F7);
        destruct (flushHeld x) as [c fc cc h hh ic ls]
    end.
    simpl in *. subst. rewrite F7.
    destruct (fired t =? 0); simpl;
      repeat (rewrite ?tryNotify_fired, ?tryNotify_heldCount,
               ?tryNotify_aliveCount, ?tryNotify_events; simpl);
      rewrite <- ?app_assoc; simpl; repeat split; reflexivity.
  - destruct (flushHeld_effect sc) as (F1 & F2 & F3 & _ & _ & _ & F7).
    destruct (flushHeld sc) as [c fc cc h hh ic ls]. simpl in *. subst.
    rewrite F7, Hic.
    repeat (rewrite ?tryNotify_fired, ?tryNotify_heldCount,
             ?tryNotify_aliveCount, ?tryNotify_events; simpl).
    rewrite <- ?app_assoc. repeat split; reflexivity.
Qed.

Lemma waitForFire_effect (f : bool) (sc : StraddleConn) (t : Transport) :
  waitForFire f sc t = sc
  \/ waitForFire f sc t = endListener sc
  \/ waitForFire f sc t = endListener (release sc).
Proof. unfold waitForFire. break_branches. Qed.

Lemma Delivery_release (x : byte) (cs : list ConnCall) (sc : StraddleConn) :
  Delivery x cs sc -> Delivery x cs (release sc).
Proof.
  unfold release. intros D.
  destruct (flushHeld_effect sc) as (F1 & _ & _ & _ & _ & _ & F7).
  destruct D as [Hh Hx Hc | k Hh Hc].
  - apply (Flushed x cs _ 0); [exact F1|].
    rewrite F7, Hh, Hx, Hc. reflexivity.
  - apply (Flushed x cs _ k); [exact F1|].
    rewrite F7, Hh, app_nil_r. exact Hc.
Qed.

Lemma Delivery_endListener (x : byte) (cs : list ConnCall) (sc : StraddleConn) :
  Delivery x cs sc -> Delivery x cs (endListener sc).
Proof.
  intros [Hh Hx Hc | k Hh Hc];
    [apply StillHeld | apply (Flushed x cs _ k)]; assumption.
Qed.

Lemma Delivery_waitForFire (x : byte) (cs : list ConnCall) (f : bool)
      (sc : StraddleConn) (t : Transport) :
  Delivery x cs sc -> Delivery x cs (waitForFire f sc t).
Proof.
  intros D.
  destruct (waitForFire_effect f sc t) as [-> | [-> | ->]];
    auto using Delivery_release, Delivery_endListener.
Qed.

Lemma Delivery_Close (x : byte) (cs : list ConnCall) (sc : StraddleConn)
      (t : Transport) :
  Delivery x cs sc -> Delivery x cs (fst (fst (Close sc t))).
Proof.
  intros D.
  destruct (Close_effect sc t) as (C1 & _ & _ & C4 & _).
  destruct D as [Hh Hx Hc | k Hh Hc].
  - apply (Flushed x cs _ 1); [exact C1|].
    rewrite C4, Hh, Hx, Hc. reflexivity.
  - apply (Flushed x cs _ (S k)); [exact C1|].
    rewrite C4, Hh, Hc. simpl. rewrite <- app_assoc. simpl.
    rewrite (repeat_cons k CallClose). reflexivity.
Qed.

Lemma waitForFire_hasHeld_false (f : bool) (sc : StraddleConn) (t : Transport) :
  hasHeld sc = false -> hasHeld (waitForFire f sc t) = false.
Proof.
  intros Hh.
  destruct (waitForFire_effect f sc t) as [-> | [-> | ->]]; simpl; auto.
  unfold release. apply flushHeld_effect.
Qed.

(** A schedule without [Write] on wrapper [i], followed from any state. *)
Lemma delivery_run (x : byte) (cs : list ConnCall) (i : nat) (tr : list Op) :
  forall (s : Sys) (sc : StraddleConn),
    wrappers s !! i = Some sc ->
    Delivery x cs sc ->
    existsb (isWriteOn i) tr = false ->
    exists sc',
      wrappers (run tr s) !! i = Some sc'
      /\ Delivery x cs sc'
      /\ (hasHeld sc = false \/ existsb (isCloseOn i) tr = true ->
          hasHeld sc' = false).
Proof.
  induction tr as [|o tr IH]; intros s sc Hi D Hw.
  - exists sc. simpl. repeat split; auto.
    intros [H | H]; [exact H | discriminate].
  - simpl in Hw. apply orb_false_elim in Hw as [Hwo Hw].
    rewrite run_cons.
    pose proof (step_lookup o s i sc Hi) as Hi'.
    assert (D' : Delivery x cs (stepWrapper o i sc (coord s))
                 /\ (hasHeld sc = false \/ isCloseOn i o = true ->
                     hasHeld (stepWrapper o i sc (coord s)) = false)).
    { destruct o as [ | r | j b | | j | j f | ]; simpl in *;
        try (split; [exact D | intros [H | H]; [exact H | discriminate]]).
      - rewrite Hwo. split; [exact D | intros [H | H]; [exact H | discriminate]].
      - destruct (j =? i)%nat.
        + split; [apply Delivery_Close, D | intros _; apply Close_effect].
        + split; [exact D | intros [H | H]; [exact H | discriminate]].
      - destruct (j =? i)%nat.
        + split; [apply Delivery_waitForFire, D|].
          intros [H | H]; [apply waitForFire_hasHeld_false, H | discriminate].
        + split; [exact D | intros [H | H]; [exact H | discriminate]]. }
    destruct D' as [D1 D2].
    destruct (IH _ _ Hi' D1 Hw) as (sc' & Hl & D3 & D4).
    exists sc'. repeat split; auto.
    intros H. apply D4. simpl in H.
    destruct H as [H | H]; [left; apply D2; auto|].
    apply orb_prop in H as [H | H]; [left; apply D2; auto | right; exact H].
Qed.

Lemma Fire_closes_current (t : Transport) :
  fired t = 0 -> chanClosed (fireChAtom t) (Fire t) = true.
Proof.
  intros Hf. unfold chanClosed, Fire. rewrite Hf. simpl.
  rewrite existsb_app. simpl. rewrite Nat.eqb_refl. apply orb_true_r.
Qed.

(** A broadcast channel that is closed stays closed. *)
Lemma step_chanClosed (ch : nat) (o : Op) (s : Sys) :
  chanClosed ch (coord s) = true -> chanClosed ch (coord (step o s)) = true.
Proof.
  unfold chanClosed. intros H.
  destruct (isReset o) eqn:HR; [|destruct (isFire o) eqn:HF].
  - destruct o; try discriminate. exact H.
  - destruct o; try discriminate. simpl. unfold Fire.
    destruct (fired (coord s) =? 0); [|exact H]. simpl.
    rewrite existsb_app, H. reflexivity.
  - destruct (step_signal o s HR HF) as (_ & -> & _). exact H.
Qed.

(** The listener of a wrapper whose broadcast channel is closed: when it
    takes its [fireCh] case, nothing is withheld afterwards. *)
Lemma waitForFire_fires (sc : StraddleConn) (t : Transport) :
  chanClosed (fireCh sc) t = true ->
  (0 < listeners sc)%nat ->
  waitForFire true sc t = endListener (release sc).
Proof.
  intros Hc Hl. unfold waitForFire. rewrite Hc.
  destruct (Nat.eqb_spec (listeners sc) 0); [lia | reflexivity].
Qed.

(** A wrapper is ready for the broadcast when it holds nothing any more,
    or still holds its byte with a listener waiting on the channel [ch]
    and its [closeCh] open.  Every step that is not a [Write] on the
    wrapper keeps it ready. *)
Lemma stepWrapper_ready (ch : nat) (o : Op) (i : nat) (sc : StraddleConn)
      (t : Transport) :
  isWriteOn i o = false ->
  hasHeld sc = false
  \/ ((0 < listeners sc)%nat /\ closeCh sc = false /\ fireCh sc = ch) ->
  hasHeld (stepWrapper o i sc t) = false
  \/ ((0 < listeners (stepWrapper o i sc t))%nat
      /\ closeCh (stepWrapper o i sc t) = false
      /\ fireCh (stepWrapper o i sc t) = ch).
Proof.
  intros Hw Hr.
  destruct o as [ | r | j b | | j | j f | ]; simpl in *; auto.
  - rewrite Hw. exact Hr.
  - destruct (j =? i)%nat; [|exact Hr]. left. apply Close_effect.
  - destruct (j =? i)%nat; [|exact Hr].
    destruct Hr as [Hh | (Hl & Hc & Hf)].
    + left. apply waitForFire_hasHeld_false, Hh.
    + unfold waitForFire.
      destruct (listeners sc =? 0)%nat; [right; auto|].
      destruct f.
      * destruct (chanClosed (fireCh sc) t); [|right; auto].
        left. simpl. unfold release. apply flushHeld_effect.
      * rewrite Hc. right. auto.
Qed.

Lemma ready_run (ch : nat) (i : nat) (tr : list Op) :
  forall (s : Sys) (sc : StraddleConn),
    wrappers s !! i = Some sc ->
    existsb (isWriteOn i) tr = false ->
    chanClosed ch (coord s) = true ->
    hasHeld sc = false
    \/ ((0 < listeners sc)%nat /\ closeCh sc = false /\ fireCh sc = ch) ->
    exists sc',
      wrappers (run tr s) !! i = Some sc'
      /\ chanClosed ch (coord (run tr s)) = true
      /\ (hasHeld sc' = false
          \/ ((0 < listeners sc')%nat /\ closeCh sc' = false /\ fireCh sc' = ch)).
Proof.
  induction tr as [|o tr IH]; intros s sc Hi Hw Hc Hr.
  - exists sc. auto.
  - simpl in Hw. apply orb_false_elim in Hw as [Hwo Hw].
    rewrite run_cons.
    apply (IH (step o s) (stepWrapper o i sc (coord s))).
    + apply step_lookup, Hi.
    + exact Hw.
    + apply step_chanClosed, Hc.
    + apply stepWrapper_ready; assumption.
Qed.

(** After [Fire], once the wrapper's listener has taken its [fireCh] case,
    the byte is out, whatever happened in between short of a [Write] on
    the wrapper. *)
Lemma fire_then_listener (i : nat) (mid : list Op) (s : Sys) (sc : StraddleConn) :
  wrappers s !! i = Some sc ->
  fired (coord s) = 0 ->
  fireCh sc = fireChAtom (coord s) ->
  (0 < listeners sc)%nat ->
  closeCh sc = false ->
  existsb (isWriteOn i) mid = false ->
  exists sc',
    wrappers (run (OpFire :: mid ++ [OpListen i true]) s) !! i = Some sc'
    /\ hasHeld sc' = false.
Proof.
  intros Hi Hf Hch Hl Hcc Hw.
  rewrite run_cons, run_app.
  assert (Hi1 : wrappers (step OpFire s) !! i = Some sc) by exact Hi.
  assert (Hc1 : chanClosed (fireCh sc) (coord (step OpFire s)) = true).
  { rewrite Hch. apply Fire_closes_current, Hf. }
  destruct (ready_run (fireCh sc) i mid (step OpFire s) sc Hi1 Hw Hc1)
    as (sc1 & Hl1 & Hc2 & Hr1); [right; auto|].
  pose proof (step_lookup (OpListen i true) _ i sc1 Hl1) as Hl2.
  unfold stepWrapper in Hl2. rewrite Nat.eqb_refl in Hl2.
  eexists. split; [exact Hl2|].
  destruct Hr1 as [Hh | (Hl' & _ & Hf')].
  - apply waitForFire_hasHeld_false, Hh.
  - rewrite waitForFire_fires; [|rewrite Hf'; exact Hc2 | exact Hl'].
    simpl. unfold release. apply flushHeld_effect.
Qed.

(** C2. A wrapper holds a withheld byte.  Whatever the schedule of [Fire],
    of the listener goroutines (taking either case of their [select]), of
    [Close] and of anything else that is not a [Write] on this wrapper, the
    byte is either still withheld and untouched, or it was handed to the
    underlying connection by exactly one [Write] of that single byte, after
    which the connection only saw [Close] calls; and once [Close] has run
    on the wrapper, it is the latter.  In particular [release] writes the
    byte and clears [hasHeld]; [Close] writes it before it closes the
    connection; after [release], [Close] only closes; after [Close],
    [release] does nothing.  And [Fire] does deliver: when the wrapper has
    a listener waiting on the channel that [Fire] closes, then after
    [Fire] and the listener's [fireCh] case the byte has been written,
    exactly once: by that [release] when nothing came in between, and in
    any case (whatever ran in between, a [Close] included) by one [Write]
    followed only by [Close] calls. *)
Theorem withheld_byte_written_once (tr : list Op) (s : Sys) (i : nat)
        (sc : StraddleConn) :
  wrappers s !! i = Some sc ->
  hasHeld sc = true ->
  existsb (isWriteOn i) tr = false ->
  (exists sc',
      wrappers (run tr s) !! i = Some sc'
      /\ Delivery (held sc) (calls (Conn sc)) sc'
      /\ (existsb (isCloseOn i) tr = true -> hasHeld sc' = false))
  /\ calls (Conn (release sc)) = calls (Conn sc) ++ [CallWrite [held sc]]
  /\ hasHeld (release sc) = false
  /\ (forall t,
        calls (Conn (fst (fst (Close sc t))))
        = calls (Conn sc) ++ [CallWrite [held sc]; CallClose])
  /\ (forall t,
        calls (Conn (fst (fst (Close (release sc) t))))
        = calls (Conn sc) ++ [CallWrite [held sc]; CallClose])
  /\ (forall t, release (fst (fst (Close sc t))) = fst (fst (Close sc t)))
  /\ (fired (coord s) = 0 ->
      fireCh sc = fireChAtom (coord s) ->
      (0 < listeners sc)%nat ->
      closeCh sc = false ->
      (exists sc',
          wrappers (run [OpFire; OpListen i true] s) !! i = Some sc'
          /\ hasHeld sc' = false
          /\ calls (Conn sc') = calls (Conn sc) ++ [CallWrite [held sc]])
      /\ (forall mid,
            existsb (isWriteOn i) mid = false ->
            exists sc' k,
              wrappers (run (OpFire :: mid ++ [OpListen i true]) s) !! i
              = Some sc'
              /\ hasHeld sc' = false
              /\ calls (Conn sc')
                 = calls (Conn sc) ++ CallWrite [held sc] :: repeat CallClose k)).
Proof.
  intros Hi Hh Hw.
  destruct (flushHeld_effect sc) as (F1 & F2 & _ & _ & _ & _ & F7).
  rewrite Hh in F7.
  split; [|split; [exact F7 | split; [exact F1 | split; [|split; [|split]]]]].
  - destruct (delivery_run (held sc) (calls (Conn sc)) i tr s sc Hi
                (StillHeld _ _ _ Hh eq_refl eq_refl) Hw)
      as (sc' & Hl & D & Hc).
    exists sc'. repeat split; auto.
  - intros t. destruct (Close_effect sc t) as (_ & _ & _ & C4 & _).
    rewrite C4, Hh. reflexivity.
  - intros t. destruct (Close_effect (release sc) t) as (_ & _ & _ & C4 & _).
    rewrite C4. unfold release. rewrite F1, F7.
    rewrite <- app_assoc. reflexivity.
  - intros t. destruct (Close_effect sc t) as (C1 & _).
    unfold release, flushHeld. rewrite C1. reflexivity.
  - intros Hf Hch Hl Hcc. split.
    + assert (Hc1 : chanClosed (fireCh sc) (coord (step OpFire s)) = true).
      { rewrite Hch. apply Fire_closes_current, Hf. }
      assert (Hi1 : wrappers (step OpFire s) !! i = Some sc) by exact Hi.
      pose proof (step_lookup (OpListen i true) _ i sc Hi1) as Hl2.
      unfold stepWrapper in Hl2. rewrite Nat.eqb_refl in Hl2.
      rewrite (waitForFire_fires sc _ Hc1 Hl) in Hl2.
      eexists. split; [exact Hl2|]. simpl. split; [exact F1 | exact F7].
    + intros mid Hm.
      destruct (fire_then_listener i mid s sc Hi Hf Hch Hl Hcc Hm)
        as (sc' & Hl' & Hh').
      assert (Hm' : existsb (isWriteOn i) (OpFire :: mid ++ [OpListen i true])
                    = false).
      { simpl. rewrite existsb_app, Hm. reflexivity. }
      destruct (delivery_run (held sc) (calls (Conn sc)) i _ s sc Hi
                  (StillHeld _ _ _ Hh eq_refl eq_refl) Hm')
        as (sc2 & Hl2 & D & _).
      rewrite Hl' in Hl2. injection Hl2 as <-.
      destruct D as [Hx _ _ | k _ Hc]; [congruence|].
      exists sc', k. auto.
Qed.

(** The wrapper wrote [abc] and holds [c].  [Fire], then the listener's
    [fireCh] case: [c] is written, once.  With a [Close] and two more
    listener steps in between, still once. *)
Lemma withheld_byte_written_once_witness :
  let s := run (dialOk ++ [OpWrite 0 [x61; x62; x63]]) initSys in
  let sc := mkStraddleConn
              (mkNetConn [CallWrite [x61; x62]] [x61; x62] [] None)
              0 false x63 true true 1 in
  (wrappers s !! 0%nat = Some sc /\ hasHeld sc = true
   /\ fired (coord s) = 0 /\ fireCh sc = fireChAtom (coord s)
   /\ (0 < listeners sc)%nat /\ closeCh sc = false)
  /\ (exists sc',
        wrappers (run [OpFire; OpListen 0 true] s) !! 0%nat = Some sc'
        /\ hasHeld sc' = false
        /\ calls (Conn sc') = [CallWrite [x61; x62]; CallWrite [x63]])
  /\ (exists sc',
        wrappers (run [OpFire; OpClose 0; OpListen 0 true; OpListen 0 false;
                       OpClose 0] s) !! 0%nat = Some sc'
        /\ Delivery x63 [CallWrite [x61; x62]] sc'
        /\ hasHeld sc' = false).
Proof.
  intros s sc.
  assert (Hl : (0 < listeners sc)%nat) by (apply le_n).
  split; [repeat split; try reflexivity; exact Hl|].
  split.
  - destruct (withheld_byte_written_once [] s 0 sc eq_refl eq_refl eq_refl)
      as (_ & _ & _ & _ & _ & _ & HF).
    destruct (HF eq_refl eq_refl Hl eq_refl) as ((sc' & H1 & H2 & H3) & _).
    exists sc'. split; [exact H1|]. split; [exact H2 | exact H3].
  - destruct (withheld_byte_written_once
                [OpFire; OpClose 0; OpListen 0 true; OpListen 0 false; OpClose 0]
                s 0 sc eq_refl eq_refl eq_refl)
      as ((sc' & H1 & D & Hc) & _).
    exists sc'. split; [exact H1|]. split; [exact D | exact (Hc eq_refl)].
Defined.

(** ** Accounting of the counters *)

Lemma sumZ_app {A : Type} (f : A -> Z) (l : list A) (a : A) :
  sumZ f (l ++ [a]) = sumZ f l + f a.
Proof. induction l as [|x l IH]; simpl; [lia | rewrite IH; lia]. Qed.

Lemma sumZ_insert {A : Type} (f : A -> Z) (l : list A) (i : nat) (a b : A) :
  l !! i = Some a -> sumZ f (<[i := b]> l) = sumZ f l - f a + f b.
Proof.
  revert i. induction l as [|x l IH]; intros [|i] Hi; simpl in *; try discriminate.
  - injection Hi as ->. lia.
  - rewrite (IH i Hi). lia.
Qed.

Lemma sumZ_bounds {A : Type} (f : A -> Z) (l : list A) (i : nat) (a : A) :
  (forall x, 0 <= f x <= 1) -> l !! i = Some a ->
  f a <= sumZ f l <= Z.of_nat (length l) - 1 + f a.
Proof.
  intros Hf. revert i. induction l as [|x l IH]; intros [|i] Hi; simpl in *;
    try discriminate.
  - injection Hi as ->.
    assert (0 <= sumZ f l <= Z.of_nat (length l)).
    { clear IH. induction l as [|y l IH]; simpl; [lia|]. specialize (Hf y). lia. }
    specialize (Hf a). lia.
  - specialize (IH i Hi). specialize (Hf x). lia.
Qed.

Lemma sumZ_range {A : Type} (f : A -> Z) (l : list A) :
  (forall x, 0 <= f x <= 1) -> 0 <= sumZ f l <= Z.of_nat (length l).
Proof.
  intros Hf. induction l as [|y l IH]; simpl; [lia|]. specialize (Hf y). lia.
Qed.

Lemma sumZ_le {A : Type} (f g : A -> Z) (l : list A) :
  Forall (fun x => f x <= g x) l -> sumZ f l <= sumZ g l.
Proof. induction 1; simpl; lia. Qed.

Lemma contribution_range (sc : StraddleConn) : 0 <= contribution sc <= 1.
Proof. unfold contribution. destruct (isCounted sc); lia. Qed.

Lemma liveness_range (sc : StraddleConn) : 0 <= liveness sc <= 1.
Proof. unfold liveness. destruct (connClosed (Conn sc)); lia. Qed.

Lemma connClosed_app (c c' : NetConn) (l : list ConnCall) :
  calls c' = calls c ++ l ->
  connClosed c' = connClosed c || existsb isCallClose l.
Proof. unfold connClosed. intros ->. apply existsb_app. Qed.

(** [Write] while the coordinator is un-fired, by its effect on the
    accounting. *)
Lemma Write_effect (b : list byte) (sc : StraddleConn) (t : Transport) :
  fired t = 0 ->
  let sc' := fst (fst (Write b sc t)) in
  let t' := snd (fst (Write b sc t)) in
  fired t' = 0
  /\ aliveCount t' = aliveCount t
  /\ connClosed (Conn sc') = connClosed (Conn sc)
  /\ (b = [] -> sc' = sc /\ t' = t)
  /\ (b <> [] ->
      isCounted sc' = true
      /\ heldCount t'
         = (if isCounted sc then heldCount t else wrap32 (heldCount t + 1))).
Proof.
  intros Hf. destruct b as [|x b'].
  { unfold Write. simpl. repeat split; auto. congruence. }
  assert (Hb : x :: b' <> []) by discriminate.
  cbv zeta. rewrite (Write_buffering _ sc t Hf Hb). cbv zeta.
  set (payload := (if hasHeld sc then [held sc] else []) ++ x :: b').
  assert (HtB : forall tB,
             tB = (if isCounted sc then t else tryNotify (AddInt32 HeldCount 1 t)) ->
             fired tB = 0 /\ aliveCount tB = aliveCount t
             /\ heldCount tB
                = (if isCounted sc then heldCount t else wrap32 (heldCount t + 1))).
  { intros tB ->. destruct (isCounted sc); [auto|].
    rewrite tryNotify_fired, tryNotify_aliveCount, tryNotify_heldCount. auto. }
  destruct (HtB _ eq_refl) as (T1 & T2 & T3).
  destruct (0 <? length (removelast payload))%nat.
  - pose proof (ConnWrite_calls (removelast payload) (Conn sc)) as Hc.
    apply connClosed_app in Hc. simpl in Hc. rewrite orb_false_r in Hc.
    destruct (ConnWrite (removelast payload) (Conn sc)) as [c' [k [e|]]];
      simpl in *; repeat split; auto; discriminate.
  - simpl. repeat split; auto; discriminate.
Qed.

Lemma waitForFire_accounting (f : bool) (sc : StraddleConn) (t : Transport) :
  isCounted (waitForFire f sc t) = isCounted sc
  /\ connClosed (Conn (waitForFire f sc t)) = connClosed (Conn sc).
Proof.
  assert (Hr : isCounted (release sc) = isCounted sc
               /\ connClosed (Conn (release sc)) = connClosed (Conn sc)).
  { unfold release.
    destruct (flushHeld_effect sc) as (_ & _ & F3 & _ & _ & _ & F7).
    split; [exact F3|]. rewrite (connClosed_app _ _ _ F7).
    destruct (hasHeld sc); simpl; rewrite ?orb_false_r; reflexivity. }
  destruct (waitForFire_effect f sc t) as [-> | [-> | ->]]; simpl; auto.
Qed.

Lemma Close_closes (sc : StraddleConn) (t : Transport) :
  connClosed (Conn (fst (fst (Close sc t)))) = true.
Proof.
  destruct (Close_effect sc t) as (_ & _ & _ & C4 & _).
  rewrite (connClosed_app _ _ _ C4). rewrite existsb_app. simpl.
  rewrite !orb_true_r. reflexivity.
Qed.

Lemma opOk_not_reset (o : Op) (s : Sys) : opOk o s = true -> isReset o = false.
Proof. destruct o; simpl; auto; discriminate. Qed.

Lemma step_fired_zero (o : Op) (s : Sys) :
  isReset o = false -> fired (coord (step o s)) = 0 -> fired (coord s) = 0.
Proof.
  intros HR H0. destruct (isFire o) eqn:HF.
  - destruct o; try discriminate. simpl in H0. unfold Fire in H0.
    destruct (Z.eqb_spec (fired (coord s)) 0) as [E | E]; [exact E|].
    simpl in H0. congruence.
  - destruct (step_signal o s HR HF) as (E & _). congruence.
Qed.

Lemma step_length (o : Op) (s : Sys) :
  (length (wrappers s) <= length (wrappers (step o s)))%nat.
Proof.
  destruct o as [ | r | j b | | j | j f | ]; simpl; auto.
  - destruct (fired (coord s) =? 1); simpl; auto.
  - destruct (dialing s); [auto|].
    destruct (trackDialEnd r (coord s)) as [t [sc1 | e]]; simpl; [|auto].
    rewrite length_app. simpl. lia.
  - destruct (wrappers s !! j) as [scj|]; [|auto].
    destruct (Write b scj (coord s)) as [[sc' t] r]. simpl.
    rewrite length_insert. auto.
  - destruct (wrappers s !! j) as [scj|]; [|auto].
    destruct (Close scj (coord s)) as [[sc' t] r]. simpl.
    rewrite length_insert. auto.
  - destruct (wrappers s !! j) as [scj|]; [|auto]. simpl.
    rewrite length_insert. auto.
Qed.

Lemma run_length (tr : list Op) (s : Sys) :
  (length (wrappers s) <= length (wrappers (run tr s)))%nat.
Proof.
  revert s. induction tr as [|o tr IH]; intros s; [simpl; auto|].
  rewrite run_cons. pose proof (step_length o s). specialize (IH (step o s)). lia.
Qed.

Lemma run_fired_zero (tr : list Op) (s : Sys) :
  traceOk tr s = true -> fired (coord (run tr s)) = 0 -> fired (coord s) = 0.
Proof.
  revert s. induction tr as [|o tr IH]; intros s Hok H0; [exact H0|].
  simpl in Hok. apply andb_prop in Hok as [Ho Hok].
  rewrite run_cons in H0.
  apply (step_fired_zero o s (opOk_not_reset o s Ho)), (IH _ Hok H0).
Qed.

Lemma step_accounted (o : Op) (s : Sys) :
  opOk o s = true ->
  fired (coord (step o s)) = 0 ->
  Z.of_nat (length (wrappers (step o s))) < 2 ^ 31 ->
  Accounted s -> Accounted (step o s).
Proof.
  intros Hok H0 Hlen (Hh & Ha & Hc).
  pose proof (step_fired_zero o s (opOk_not_reset o s Hok) H0) as Hf.
  pose proof (sumZ_range contribution (wrappers s) contribution_range) as Rc.
  pose proof (sumZ_range liveness (wrappers s) liveness_range) as Rl.
  destruct o as [ | r | i b | | i | i f | ]; simpl in *; try discriminate.
  - (* DialBegin *)
    rewrite Hf. simpl. repeat split; assumption.
  - (* DialEnd *)
    destruct (dialing s); [repeat split; assumption|].
    unfold trackDialEnd, wrapConn in *.
    destruct r as [c | e]; simpl in *.
    + rewrite length_app in Hlen. simpl in Hlen.
      unfold Accounted. simpl.
      rewrite tryNotify_heldCount, tryNotify_aliveCount. simpl.
      rewrite !sumZ_app. unfold contribution at 2, liveness at 2. simpl.
      apply negb_true_iff in Hok. rewrite Hok.
      split; [lia|]. split.
      * rewrite Ha. rewrite wrap32_id; [lia|]. unfold in_int32. lia.
      * apply Forall_app. split; [exact Hc|].
        constructor; [discriminate | constructor].
    + unfold Accounted. simpl.
      rewrite tryNotify_heldCount, tryNotify_aliveCount. simpl.
      repeat split; assumption.
  - (* Write *)
    unfold wrapperOpen in Hok.
    destruct (wrappers s !! i) as [sc|] eqn:Hi; [|repeat split; assumption].
    apply negb_true_iff in Hok.
    destruct (Write_effect b sc (coord s) Hf) as (W1 & W2 & W3 & W4 & W5).
    destruct (Write b sc (coord s)) as [[sc' t'] res]. simpl in *.
    rewrite length_insert in Hlen.
    pose proof (sumZ_bounds contribution _ _ _ contribution_range Hi) as Bc.
    unfold Accounted. simpl.
    rewrite (sumZ_insert contribution _ _ _ sc' Hi).
    rewrite (sumZ_insert liveness _ _ _ sc' Hi).
    assert (Hl : liveness sc' = liveness sc) by (unfold liveness; rewrite W3; reflexivity).
    rewrite Hl, W2.
    split; [|split; [lia|]].
    + destruct b as [|x b'].
      * destruct (W4 eq_refl) as [-> ->]. lia.
      * destruct W5 as [W5 W6]; [discriminate|].
        rewrite W6. unfold contribution in *. rewrite W5.
        destruct (isCounted sc); [lia|].
        rewrite wrap32_id; [lia|]. unfold in_int32. lia.
    + apply Forall_insert; [exact Hc|]. intros _. rewrite W3. exact Hok.
  - (* Fire *)
    unfold Fire in H0. rewrite Hf in H0. simpl in H0. discriminate.
  - (* Close *)
    unfold wrapperOpen in Hok.
    destruct (wrappers s !! i) as [sc|] eqn:Hi; [|repeat split; assumption].
    apply negb_true_iff in Hok.
    destruct (Close_effect sc (coord s)) as (_ & _ & C3 & _ & _ & C6 & C7 & _).
    pose proof (Close_closes sc (coord s)) as C8.
    destruct (Close sc (coord s)) as [[sc' t'] res]. simpl in *.
    rewrite length_insert in Hlen.
    pose proof (sumZ_bounds contribution _ _ _ contribution_range Hi) as Bc.
    pose proof (sumZ_bounds liveness _ _ _ liveness_range Hi) as Bl.
    unfold Accounted. simpl.
    rewrite (sumZ_insert contribution _ _ _ sc' Hi).
    rewrite (sumZ_insert liveness _ _ _ sc' Hi).
    rewrite C6, C7, Hf. simpl. rewrite andb_true_r.
    unfold contribution in *. unfold liveness in *.
    rewrite C3, C8. rewrite Hok in *.
    split; [|split].
    + destruct (isCounted sc); [|lia].
      rewrite wrap32_id; [lia|]. unfold in_int32. lia.
    + rewrite wrap32_id; [lia|]. unfold in_int32. lia.
    + apply Forall_insert; [exact Hc|]. rewrite C3. discriminate.
  - (* Listen *)
    destruct (wrappers s !! i) as [sc|] eqn:Hi; [|repeat split; assumption].
    destruct (waitForFire_accounting f sc (coord s)) as [L1 L2].
    unfold Accounted. simpl.
    rewrite (sumZ_insert contribution _ _ _ (waitForFire f sc (coord s)) Hi).
    rewrite (sumZ_insert liveness _ _ _ (waitForFire f sc (coord s)) Hi).
    assert (E1 : contribution (waitForFire f sc (coord s)) = contribution sc)
      by (unfold contribution; rewrite L1; reflexivity).
    assert (E2 : liveness (waitForFire f sc (coord s)) = liveness sc)
      by (unfold liveness; rewrite L2; reflexivity).
    rewrite E1, E2.
    split; [lia|]. split; [lia|].
    apply Forall_insert; [exact Hc|]. rewrite L1, L2.
    apply (Forall_lookup_1 _ _ _ _ Hc Hi).
Qed.

Lemma run_accounted (tr : list Op) :
  forall s : Sys,
    traceOk tr s = true ->
    fired (coord (run tr s)) = 0 ->
    Z.of_nat (length (wrappers (run tr s))) < 2 ^ 31 ->
    Accounted s -> Accounted (run tr s).
Proof.
  induction tr as [|o tr IH]; intros s Hok H0 Hlen Hacc; [exact Hacc|].
  simpl in Hok. apply andb_prop in Hok as [Ho Hok].
  rewrite run_cons in *.
  apply (IH _ Hok H0 Hlen).
  apply (step_accounted o s Ho).
  - apply (run_fired_zero tr _ Hok H0).
  - pose proof (run_length tr (step o s)). lia.
  - exact Hacc.
Qed.

(** C6, as amended.  Start from a new coordinator and run any schedule of
    dial, [Write], [Fire], [Close] and listener steps in which the dialer
    hands over open connections (fewer than 2^31 of them: the counters are
    [int32]) and no wrapper is written to or closed again after its
    [Close].  If [fired] is still 0 at the end, then
    [heldCount <= aliveCount]; [heldCount] is the sum of what the wrappers
    contribute, each of them 0 or 1; [aliveCount] is the number of wrappers
    not closed; and every counted wrapper is open. *)
Theorem held_le_alive (tr : list Op) :
  traceOk tr initSys = true ->
  Z.of_nat (length (wrappers (run tr initSys))) < 2 ^ 31 ->
  fired (coord (run tr initSys)) = 0 ->
  heldCount (coord (run tr initSys)) <= aliveCount (coord (run tr initSys))
  /\ heldCount (coord (run tr initSys))
     = sumZ contribution (wrappers (run tr initSys))
  /\ (forall sc, contribution sc = 0 \/ contribution sc = 1)
  /\ aliveCount (coord (run tr initSys))
     = sumZ liveness (wrappers (run tr initSys))
  /\ (forall sc, In sc (wrappers (run tr initSys)) ->
                 isCounted sc = true -> connClosed (Conn sc) = false).
Proof.
  intros Hok Hlen H0.
  assert (Hinit : Accounted initSys).
  { unfold Accounted. simpl. repeat split; constructor. }
  destruct (run_accounted tr initSys Hok H0 Hlen Hinit) as (Hh & Ha & Hc).
  split; [|split; [exact Hh | split; [|split; [exact Ha|]]]].
  - rewrite Hh, Ha. apply sumZ_le.
    eapply Forall_impl; [exact Hc|]. intros sc Hsc. simpl in Hsc.
    unfold contribution, liveness.
    destruct (isCounted sc); [rewrite (Hsc eq_refl); lia|].
    destruct (connClosed (Conn sc)); lia.
  - intros sc. unfold contribution. destruct (isCounted sc); auto.
  - intros sc Hin. rewrite List.Forall_forall in Hc. apply Hc, Hin.
Qed.

Lemma held_le_alive_witness :
  (traceOk quorumTrace initSys = true
   /\ Z.of_nat (length (wrappers (run quorumTrace initSys))) < 2 ^ 31
   /\ fired (coord (run quorumTrace initSys)) = 0)
  /\ heldCount (coord (run quorumTrace initSys))
     <= aliveCount (coord (run quorumTrace initSys))
  /\ heldCount (coord (run quorumTrace initSys)) = 2.
Proof.
  split; [repeat split; reflexivity|].
  destruct (held_le_alive quorumTrace eq_refl eq_refl eq_refl) as (H1 & H2 & _).
  split; [exact H1 | exact H2].
Defined.

(** C6 as stated fails: a [Write] on a wrapper that was closed counts it
    again although it is no longer alive, and a second [Close] takes one
    more from [aliveCount]; in both cases [heldCount] is 1, [aliveCount]
    is 0 and [fired] is 0. *)
Lemma held_exceeds_alive :
  (fired (coord (run useAfterClose initSys)) = 0
   /\ heldCount (coord (run useAfterClose initSys)) = 1
   /\ aliveCount (coord (run useAfterClose initSys)) = 0
   /\ ~ heldCount (coord (run useAfterClose initSys))
        <= aliveCount (coord (run useAfterClose initSys)))
  /\ (fired (coord (run closedTwice initSys)) = 0
      /\ heldCount (coord (run closedTwice initSys)) = 1
      /\ aliveCount (coord (run closedTwice initSys)) = 0
      /\ ~ heldCount (coord (run closedTwice initSys))
           <= aliveCount (coord (run closedTwice initSys))).
Proof.
  split; (split; [reflexivity|]); (split; [reflexivity|]);
    (split; [reflexivity|]); vm_compute; intros H; apply H; reflexivity.
Qed.

(** ** Decrements of [heldCount] *)

Lemma skipn_app_length {A : Type} (l k : list A) : skipn (length l) (l ++ k) = k.
Proof. induction l as [|x l IH]; simpl; auto. Qed.

Lemma Close_emitted (sc : StraddleConn) (t : Transport) :
  List.filter isHeldDecrement
    (skipn (length (events t)) (events (snd (fst (Close sc t)))))
  = if isCounted sc && (fired t =? 0) then [EvAdd HeldCount (-1)] else [].
Proof.
  destruct (Close_effect sc t) as (_ & _ & _ & _ & _ & _ & _ & C8).
  rewrite C8, skipn_app_length.
  destruct (isCounted sc), (fired t =? 0); reflexivity.
Qed.

Lemma emitted_Close (i : nat) (s : Sys) :
  length (List.filter isHeldDecrement (emitted (OpClose i) s))
  = match wrappers s !! i with
    | Some sc => if isCounted sc && (fired (coord s) =? 0) then 1%nat else 0%nat
    | None => 0%nat
    end.
Proof.
  unfold emitted. simpl.
  destruct (wrappers s !! i) as [sc|].
  - pose proof (Close_emitted sc (coord s)) as H.
    destruct (Close sc (coord s)) as [[sc' t'] r]. simpl in *. rewrite H.
    destruct (isCounted sc && (fired (coord s) =? 0)); reflexivity.
  - rewrite <- (app_nil_r (events (coord s))) at 2.
    rewrite skipn_app_length. reflexivity.
Qed.

Lemma Write_connClosed (b : list byte) (sc : StraddleConn) (t : Transport) :
  connClosed (Conn (fst (fst (Write b sc t)))) = connClosed (Conn sc).
Proof.
  assert (Hcw : forall p c, connClosed (fst (ConnWrite p c)) = connClosed c).
  { intros p c. pose proof (ConnWrite_calls p c) as Hc.
    apply connClosed_app in Hc. simpl in Hc. rewrite orb_false_r in Hc.
    exact Hc. }
  destruct b as [|x b']; [reflexivity|].
  assert (Hb : x :: b' <> []) by discriminate.
  destruct (Z.eq_dec (fired t) 1) as [Hf | Hf].
  - unfold Write. rewrite (length_nonempty _ Hb), Hf. simpl.
    unfold connWrite. specialize (Hcw (x :: b') (Conn sc)).
    destruct (ConnWrite (x :: b') (Conn sc)) as [c' r]. exact Hcw.
  - rewrite (Write_buffering_gen _ sc t Hf Hb). cbv zeta.
    destruct (0 <? length _)%nat; [|reflexivity].
    match goal with
    | |- context [ConnWrite ?p ?c] =>
        specialize (Hcw p c); destruct (ConnWrite p c) as [c' [k [e|]]]
    end; exact Hcw.
Qed.

(** A wrapper that does not exist yet stays absent or appears uncounted. *)
Lemma step_lookup_new (o : Op) (s : Sys) (i : nat) :
  wrappers s !! i = None ->
  wrappers (step o s) !! i = None
  \/ exists sc, wrappers (step o s) !! i = Some sc /\ isCounted sc = false.
Proof.
  intros Hi. pose proof (lookup_ge_None_1 _ _ Hi) as Hge.
  destruct o as [ | r | j b | | j | j f | ]; simpl; auto.
  - destruct (fired (coord s) =? 1); simpl; auto.
  - destruct (dialing s); [auto|].
    unfold trackDialEnd, wrapConn. destruct r as [c | e]; simpl; [|auto].
    destruct (Nat.eq_dec i (length (wrappers s))) as [-> | Hne].
    + right. eexists. split.
      * rewrite lookup_app_r by lia. rewrite Nat.sub_diag. reflexivity.
      * reflexivity.
    + left. apply lookup_ge_None_2. rewrite length_app. simpl. lia.
  - destruct (wrappers s !! j) as [scj|]; [|auto].
    destruct (Write b scj (coord s)) as [[sc' t] r]. simpl.
    left. apply lookup_ge_None_2. rewrite length_insert. exact Hge.
  - destruct (wrappers s !! j) as [scj|]; [|auto].
    destruct (Close scj (coord s)) as [[sc' t] r]. simpl.
    left. apply lookup_ge_None_2. rewrite length_insert. exact Hge.
  - destruct (wrappers s !! j) as [scj|]; [|auto]. simpl.
    left. apply lookup_ge_None_2. rewrite length_insert. exact Hge.
Qed.

Arguments step : simpl never.

(** Once a wrapper is closed and uncounted, no later step decrements
    [heldCount] for it, as long as it is not written to again. *)
Lemma spent_no_decrement (i : nat) (tr : list Op) :
  forall (s : Sys) (sc : StraddleConn),
    wrappers s !! i = Some sc ->
    connClosed (Conn sc) = true ->
    isCounted sc = false ->
    noWriteAfterClose i tr s = true ->
    heldDecrements i tr s = 0%nat.
Proof.
  induction tr as [|o tr IH]; intros s sc Hi Hcl Hic Hn; [reflexivity|].
  simpl in Hn. apply andb_prop in Hn as [Hw Hn].
  pose proof (step_lookup o s i sc Hi) as Hi'.
  assert (Hstep : connClosed (Conn (stepWrapper o i sc (coord s))) = true
                  /\ isCounted (stepWrapper o i sc (coord s)) = false).
  { destruct o as [ | r | j b | | j | j f | ]; simpl in *; auto.
    - destruct (j =? i)%nat; [|auto].
      unfold wrapperOpen in Hw. rewrite Hi, Hcl in Hw. discriminate.
    - destruct (j =? i)%nat; [|auto].
      split; [apply Close_closes | apply Close_effect].
    - destruct (j =? i)%nat; [|auto].
      destruct (waitForFire_accounting f sc (coord s)) as [-> ->]. auto. }
  destruct Hstep as [Hcl' Hic'].
  simpl. rewrite (IH _ _ Hi' Hcl' Hic' Hn).
  destruct o as [ | r | j b | | j | j f | ]; auto.
  destruct (Nat.eqb_spec j i) as [-> | Hne]; [|reflexivity].
  rewrite emitted_Close, Hi, Hic. reflexivity.
Qed.

Lemma decrements_le_one (i : nat) (tr : list Op) :
  forall s : Sys,
    (forall sc, wrappers s !! i = Some sc ->
                connClosed (Conn sc) = true -> isCounted sc = false) ->
    noWriteAfterClose i tr s = true ->
    (heldDecrements i tr s <= 1)%nat.
Proof.
  induction tr as [|o tr IH]; intros s Hsafe Hn; [simpl; lia|].
  simpl in Hn. apply andb_prop in Hn as [Hw Hn]. simpl.
  destruct (wrappers s !! i) as [sc|] eqn:Hi.
  - pose proof (step_lookup o s i sc Hi) as Hi'.
    destruct (isCloseOn i o) eqn:Hco.
    + destruct o; try discriminate. simpl in Hco.
      apply Nat.eqb_eq in Hco. subst.
      rewrite Nat.eqb_refl, emitted_Close, Hi.
      simpl in Hi'. rewrite Nat.eqb_refl in Hi'.
      rewrite (spent_no_decrement i tr _ _ Hi' (Close_closes _ _)
                 (proj1 (proj2 (proj2 (Close_effect sc (coord s))))) Hn).
      destruct (isCounted sc && (fired (coord s) =? 0)); lia.
    + assert (H0 : (match o with
                    | OpClose j =>
                        if (j =? i)%nat
                        then length (List.filter isHeldDecrement (emitted o s))
                        else 0
                    | _ => 0
                    end = 0)%nat).
      { destruct o; auto. simpl in Hco. rewrite Hco. reflexivity. }
      rewrite H0. simpl. apply IH; [|exact Hn].
      intros sc' Hl. rewrite Hi' in Hl. injection Hl as <-.
      destruct o as [ | r | j b | | j | j f | ]; simpl in *;
        try (apply (Hsafe sc eq_refl)).
      * destruct (j =? i)%nat; [|apply (Hsafe sc eq_refl)].
        rewrite Write_connClosed.
        unfold wrapperOpen in Hw. rewrite Hi in Hw.
        apply negb_true_iff in Hw. rewrite Hw. discriminate.
      * rewrite Hco. apply (Hsafe sc eq_refl).
      * destruct (j =? i)%nat; [|apply (Hsafe sc eq_refl)].
        destruct (waitForFire_accounting f sc (coord s)) as [-> ->].
        apply (Hsafe sc eq_refl).
  - assert (H0 : (match o with
                  | OpClose j =>
                      if (j =? i)%nat
                      then length (List.filter isHeldDecrement (emitted o s))
                      else 0
                  | _ => 0
                  end = 0)%nat).
    { destruct o as [ | r | j b | | j | j f | ]; auto.
      destruct (Nat.eqb_spec j i) as [-> | Hne]; [|reflexivity].
      rewrite emitted_Close, Hi. reflexivity. }
    rewrite H0. simpl. apply IH; [|exact Hn].
    intros sc' Hl _.
    destruct (step_lookup_new o s i Hi) as [Hnone | (sc1 & Hsome & Hc1)];
      congruence.
Qed.

(** C7, as amended.  [Close] on a counted wrapper while [fired] is 0 takes
    1 from [heldCount], once, and clears [isCounted]; [Close] after [Fire]
    leaves [heldCount] as it is; and in every schedule from a new
    coordinator in which the wrapper is not written to after it was closed,
    [heldCount] is decremented at most once for that wrapper. *)
Theorem Close_decrements_once (sc : StraddleConn) (t : Transport) (i : nat)
        (tr : list Op) :
  (isCounted sc = true -> fired t = 0 ->
     heldCount (snd (fst (Close sc t))) = wrap32 (heldCount t - 1)
     /\ (in_int32 (heldCount t - 1) ->
         heldCount (snd (fst (Close sc t))) = heldCount t - 1)
     /\ isCounted (fst (fst (Close sc t))) = false
     /\ List.filter isHeldDecrement
          (skipn (length (events t)) (events (snd (fst (Close sc t)))))
        = [EvAdd HeldCount (-1)])
  /\ (fired t <> 0 ->
      heldCount (snd (fst (Close sc t))) = heldCount t
      /\ isCounted (fst (fst (Close sc t))) = false
      /\ List.filter isHeldDecrement
           (skipn (length (events t)) (events (snd (fst (Close sc t)))))
         = [])
  /\ (noWriteAfterClose i tr initSys = true ->
      (heldDecrements i tr initSys <= 1)%nat).
Proof.
  destruct (Close_effect sc t) as (_ & _ & C3 & _ & _ & C6 & _).
  pose proof (Close_emitted sc t) as C9.
  split; [|split].
  - intros Hic Hf. rewrite C6, C9, Hic, Hf. simpl.
    repeat split; auto. intros Hr. apply wrap32_id, Hr.
  - intros Hf. apply Z.eqb_neq in Hf. rewrite C6, C9, Hf, andb_false_r.
    auto.
  - intros Hn. apply decrements_le_one; [|exact Hn].
    intros sc' Hl. simpl in Hl. discriminate.
Qed.

Lemma Close_decrements_once_witness :
  let tr := dialOk ++ [OpWrite 0 [x61]; OpClose 0; OpClose 0; OpFire; OpClose 0] in
  let sc := mkStraddleConn (freshConn []) 0 false x61 true true 1 in
  let t := coord (run (dialOk ++ [OpWrite 0 [x61]]) initSys) in
  (isCounted sc = true /\ fired t = 0 /\ fired (Fire t) <> 0
   /\ noWriteAfterClose 0 tr initSys = true)
  /\ heldCount t = 1
  /\ heldCount (snd (fst (Close sc t))) = 0
  /\ heldCount (snd (fst (Close sc (Fire t)))) = 1
  /\ (heldDecrements 0 tr initSys <= 1)%nat.
Proof.
  intros tr sc t.
  assert (Hfired : fired (Fire t) <> 0) by discriminate.
  split; [repeat split; try reflexivity; exact Hfired|].
  destruct (Close_decrements_once sc t 0 tr) as (H1 & _ & H3).
  destruct (Close_decrements_once sc (Fire t) 0 tr) as (_ & H2 & _).
  destruct (H1 eq_refl eq_refl) as (Ha & _).
  destruct (H2 Hfired) as (Hb & _).
  split; [reflexivity|]. split; [exact Ha|]. split; [exact Hb|].
  exact (H3 eq_refl).
Defined.

(** C7 as stated fails in its last part: a wrapper that is counted, closed,
    written to again (which counts it again) and closed again has
    [heldCount] decremented twice on its behalf. *)
Lemma held_decremented_twice :
  heldDecrements 0 recounted initSys = 2%nat
  /\ ~ (heldDecrements 0 recounted initSys <= 1)%nat.
Proof.
  split; [reflexivity|]. vm_compute. lia.
Qed.

(** * Further properties of the code *)

(** ** [Wait] *)

(** X1. [Wait] is decided by the first wake-up that is the context's or a
    notification finding [check] true: notifications that find it false are
    skipped, the first passing one gives nil, and the context gives the
    error carrying the counters read at that moment. *)
Theorem Wait_first_decisive (want : Z) (t : Transport) (pre : list Wake) :
  0 < want ->
  check want t = false ->
  forallb (fun w => negb (decisive want w)) pre = true ->
  Wait want t pre = None
  /\ (forall t' post,
        check want t' = true ->
        Wait want t (pre ++ Notified t' :: post) = Some WaitNil)
  /\ (forall t' post,
        Wait want t (pre ++ CtxDone t' :: post)
        = Some (WaitTimeout want (dialStartCount t') (dialInflight t')
                  (aliveCount t') (heldCount t'))).
Proof.
  intros Hw Hc Hpre. unfold Wait.
  destruct (Z.leb_spec want 0) as [H | _]; [lia|]. rewrite Hc.
  induction pre as [|w pre IH]; simpl.
  - split; [reflexivity|]. split; [intros t' post ->; reflexivity | reflexivity].
  - simpl in Hpre. apply andb_prop in Hpre as [Hd Hpre].
    destruct w as [t0 | t0]; simpl in Hd; [discriminate|].
    apply negb_true_iff in Hd. rewrite Hd. exact (IH Hpre).
Qed.

Lemma Wait_first_decisive_witness :
  let t := coord (run quorumTrace initSys) in
  let t' := coord (run (quorumTrace ++ [OpWrite 2 [x61]]) initSys) in
  (0 < 2 /\ check 2 t = false
   /\ forallb (fun w => negb (decisive 2 w)) [Notified t; Notified t] = true)
  /\ Wait 2 t ([Notified t; Notified t] ++ Notified t' :: [CtxDone t'])
     = Some WaitNil.
Proof.
  intros t t'.
  assert (H0 : 0 < 2) by reflexivity.
  split; [repeat split; reflexivity|].
  destruct (Wait_first_decisive 2 t [Notified t; Notified t] H0 eq_refl eq_refl)
    as (_ & H & _).
  exact (H t' [CtxDone t'] eq_refl).
Defined.

(** X2. On a coordinator on which nothing was dialed, [Wait] returns nil at
    once exactly when [want <= 0] or the conversion [int32(want)] is not
    positive (as for [want = 2^32]); for every other [want] it blocks
    until woken. *)
Theorem Wait_fresh (want : Z) :
  (Wait want NewTransport [] = Some WaitNil <-> (want <= 0 \/ wrap32 want <= 0))
  /\ (Wait want NewTransport [] = None <-> (0 < want /\ 0 < wrap32 want)).
Proof.
  unfold Wait, check. simpl.
  destruct (Z.leb_spec want 0) as [H | H];
    destruct (Z.ltb_spec 0 (wrap32 want)) as [H' | H']; simpl;
    split; split; intros X; try discriminate; try reflexivity; try lia; auto.
Qed.

(** The bare [check], when [want] fits [int32]: true exactly when enough
    dials have started, none is in flight, and either no connection is
    alive or every alive connection is held. *)
Theorem check_true_iff (want : Z) (t : Transport) :
  in_int32 want ->
  (check want t = true
   <-> want <= dialStartCount t /\ dialInflight t <= 0
       /\ (aliveCount t = 0 \/ heldCount t = aliveCount t)).
Proof.
  intros Hw. unfold check. rewrite (wrap32_id want Hw).
  destruct (Z.ltb_spec (dialStartCount t) want);
    [split; [discriminate | lia]|].
  rewrite Z.gtb_ltb.
  destruct (Z.ltb_spec 0 (dialInflight t));
    [split; [discriminate | lia]|].
  destruct (Z.eqb_spec (aliveCount t) 0); [split; auto|].
  destruct (Z.eqb_spec (heldCount t) (aliveCount t)); split; auto;
    try discriminate.
  intros (_ & _ & [X | X]); contradiction.
Qed.

Lemma check_true_iff_witness :
  in_int32 3 /\ check 3 (coord (run (quorumTrace ++ [OpWrite 2 [x61]]) initSys)) = true.
Proof.
  assert (H : in_int32 3) by (unfold in_int32; split; [discriminate | reflexivity]).
  split; [exact H|].
  apply (proj2 (check_true_iff 3 _ H)).
  split; [discriminate|]. split; [discriminate|]. right. reflexivity.
Defined.

Lemma failedDials_run (e : error) (k : nat) :
  forall s : Sys,
    fired (coord s) = 0 ->
    in_int32 (dialInflight (coord s)) ->
    0 <= dialStartCount (coord s) ->
    dialStartCount (coord s) + Z.of_nat k < 2 ^ 31 ->
    let s' := run (failedDials e k) s in
    dialStartCount (coord s') = dialStartCount (coord s) + Z.of_nat k
    /\ dialInflight (coord s') = dialInflight (coord s)
    /\ aliveCount (coord s') = aliveCount (coord s)
    /\ heldCount (coord s') = heldCount (coord s)
    /\ fired (coord s') = 0
    /\ wrappers s' = wrappers s.
Proof.
  induction k as [|k IH]; intros s Hf Hi H0 Hb.
  - simpl. repeat split; auto; lia.
  - cbv zeta. change (failedDials e (S k))
      with (OpDialBegin :: OpDialEnd (inr e) :: failedDials e k).
    rewrite !run_cons.
    set (s1 := step (OpDialEnd (inr e)) (step OpDialBegin s)).
    assert (H1 : dialStartCount (coord s1) = dialStartCount (coord s) + 1
                 /\ dialInflight (coord s1) = dialInflight (coord s)
                 /\ aliveCount (coord s1) = aliveCount (coord s)
                 /\ heldCount (coord s1) = heldCount (coord s)
                 /\ fired (coord s1) = 0
                 /\ wrappers s1 = wrappers s).
    { assert (E : step OpDialBegin s
                  = mkSys (trackDialBegin (coord s)) (wrappers s) (S (dialing s))).
      { unfold step. rewrite Hf. reflexivity. }
      subst s1. rewrite E. unfold step, trackDialEnd, trackDialBegin. simpl.
      rewrite tryNotify_fired, tryNotify_heldCount, tryNotify_aliveCount.
      unfold tryNotify. simpl.
      destruct (notifyCh (coord s) <? 1)%nat; simpl;
        (split; [apply wrap32_id; unfold in_int32; lia|]);
        (split; [apply wrap32_succ_pred, Hi|]); auto. }
    destruct H1 as (A1 & A2 & A3 & A4 & A5 & A6).
    destruct (IH s1) as (B1 & B2 & B3 & B4 & B5 & B6); try lia;
      try (rewrite ?A1, ?A2; assumption).
    rewrite B1, B2, B3, B4, B6, A1, A2, A3, A4, A6.
    repeat split; auto; lia.
Qed.

(** X3. When every dial of a round fails, [Wait] does not hang: after [k]
    failed dials on a new coordinator, [Wait(ctx, want)] returns nil at
    once for every [want] up to [k], although no connection is held. *)
Theorem Wait_returns_when_all_dials_fail (e : error) (k : nat) (want : Z)
        (wakes : list Wake) :
  Z.of_nat k < 2 ^ 31 ->
  want <= Z.of_nat k ->
  let t := coord (run (failedDials e k) initSys) in
  Wait want t wakes = Some WaitNil
  /\ aliveCount t = 0 /\ heldCount t = 0 /\ dialInflight t = 0
  /\ dialStartCount t = Z.of_nat k.
Proof.
  intros Hk Hw.
  destruct (failedDials_run e k initSys eq_refl) as (B1 & B2 & B3 & B4 & _);
    try (simpl; unfold in_int32; lia).
  simpl in B1, B2, B3, B4. cbv zeta. rewrite B1, B2, B3, B4.
  repeat split; auto.
  unfold Wait. destruct (Z.leb_spec want 0) as [|Hpos]; [reflexivity|].
  assert (Hc : check want (coord (run (failedDials e k) initSys)) = true).
  { apply check_true_iff; [unfold in_int32; lia|].
    rewrite B1, B2, B3. split; [lia|]. split; [lia | auto]. }
  rewrite Hc. reflexivity.
Qed.

Lemma Wait_returns_when_all_dials_fail_witness :
  (Z.of_nat 3 < 2 ^ 31 /\ 2 <= Z.of_nat 3)
  /\ Wait 2 (coord (run (failedDials (Err 1) 3) initSys)) [] = Some WaitNil.
Proof.
  assert (H1 : Z.of_nat 3 < 2 ^ 31) by reflexivity.
  assert (H2 : 2 <= Z.of_nat 3) by discriminate.
  split; [split; assumption|].
  exact (proj1 (Wait_returns_when_all_dials_fail (Err 1) 3 2 [] H1 H2)).
Defined.

Lemma sumZ_ext_in {A : Type} (f g : A -> Z) (l : list A) :
  (forall x, In x l -> f x = g x) -> sumZ f l = sumZ g l.
Proof.
  induction l as [|x l IH]; intros H; [reflexivity|]. simpl.
  rewrite (H x (or_introl eq_refl)), IH; [reflexivity|].
  intros y Hy. apply H. right. exact Hy.
Qed.

(** X4. When fewer connections came alive than wanted, [Wait] returns as soon
    as the dials have settled and every connection still open holds a
    byte: in a state reached by a schedule that respects the wrappers'
    life cycle, with [fired] 0, enough dials started and none in flight,
    [Wait] returns nil at once if every open wrapper is counted, and then
    [heldCount = aliveCount]. *)
Theorem Wait_returns_when_survivors_held (tr : list Op) (want : Z)
        (wakes : list Wake) :
  traceOk tr initSys = true ->
  Z.of_nat (length (wrappers (run tr initSys))) < 2 ^ 31 ->
  fired (coord (run tr initSys)) = 0 ->
  in_int32 want ->
  want <= dialStartCount (coord (run tr initSys)) ->
  dialInflight (coord (run tr initSys)) <= 0 ->
  (forall sc, In sc (wrappers (run tr initSys)) ->
              connClosed (Conn sc) = false -> isCounted sc = true) ->
  Wait want (coord (run tr initSys)) wakes = Some WaitNil
  /\ heldCount (coord (run tr initSys)) = aliveCount (coord (run tr initSys)).
Proof.
  intros Hok Hlen H0 Hw Hs Hi Hall.
  assert (Hinit : Accounted initSys).
  { unfold Accounted. simpl. repeat split; constructor. }
  destruct (run_accounted tr initSys Hok H0 Hlen Hinit) as (Hh & Ha & Hc).
  assert (Heq : heldCount (coord (run tr initSys))
                = aliveCount (coord (run tr initSys))).
  { rewrite Hh, Ha. rewrite List.Forall_forall in Hc.
    apply sumZ_ext_in. intros sc Hin. unfold contribution, liveness.
    destruct (isCounted sc) eqn:E1.
    - rewrite (Hc sc Hin E1). reflexivity.
    - destruct (connClosed (Conn sc)) eqn:E2; [reflexivity|].
      rewrite (Hall sc Hin E2) in E1. discriminate. }
  split; [|exact Heq].
  unfold Wait. destruct (want <=? 0); [reflexivity|].
  assert (Hck : check want (coord (run tr initSys)) = true).
  { apply check_true_iff; [exact Hw|]. auto. }
  rewrite Hck. reflexivity.
Qed.

Lemma Wait_returns_when_survivors_held_witness :
  let tr := dialOk ++ [OpDialBegin; OpDialEnd (inr (Err 2))]
              ++ dialOk ++ [OpWrite 0 [x61]; OpWrite 1 getRequest] in
  (traceOk tr initSys = true /\ fired (coord (run tr initSys)) = 0
   /\ dialStartCount (coord (run tr initSys)) = 3)
  /\ Wait 3 (coord (run tr initSys)) [] = Some WaitNil
  /\ heldCount (coord (run tr initSys)) = 2.
Proof.
  intros tr.
  split; [repeat split; vm_compute; reflexivity|].
  assert (Hw : in_int32 3) by (unfold in_int32; split; [discriminate | reflexivity]).
  assert (Hall : forall sc, In sc (wrappers (run tr initSys)) ->
                            connClosed (Conn sc) = false -> isCounted sc = true).
  { vm_compute. intros sc [<- | [<- | []]] _; reflexivity. }
  destruct (Wait_returns_when_survivors_held tr 3 [] eq_refl eq_refl eq_refl Hw
              ltac:(discriminate) ltac:(discriminate) Hall) as [H1 H2].
  split; [exact H1 | vm_compute; reflexivity].
Defined.

(** ** What each operation does to the coordinator *)

Lemma Write_coord (b : list byte) (sc : StraddleConn) (t : Transport) :
  snd (fst (Write b sc t)) = t
  \/ (fired t <> 1
      /\ snd (fst (Write b sc t)) = tryNotify (AddInt32 HeldCount 1 t)).
Proof.
  destruct b as [|x b']; [left; reflexivity|].
  assert (Hb : x :: b' <> []) by discriminate.
  destruct (Z.eq_dec (fired t) 1) as [Hf | Hf].
  - left. unfold Write. rewrite (length_nonempty _ Hb), Hf. simpl.
    destruct (connWrite (x :: b') sc). reflexivity.
  - rewrite (Write_buffering_gen _ sc t Hf Hb). cbv zeta.
    destruct (isCounted sc);
      (destruct (0 <? length _)%nat;
       [destruct (ConnWrite _ _) as [c' [k [e|]]] |]); simpl; auto.
Qed.

Lemma Close_coord (sc : StraddleConn) (t : Transport) :
  exists t1,
    snd (fst (Close sc t)) = tryNotify (AddInt32 AliveCount (-1) t1)
    /\ (t1 = t \/ t1 = tryNotify t
        \/ (fired t = 0 /\ t1 = tryNotify (AddInt32 HeldCount (-1) t))).
Proof.
  unfold Close. destruct (isCounted sc).
  - destruct (Z.eqb_spec (fired t) 0) as [Hf | Hf];
      eexists; (split; [reflexivity|]); auto.
  - exists t. split; [reflexivity | auto].
Qed.

Lemma trackDialEnd_coord (r : NetConn + error) (t : Transport) :
  fst (trackDialEnd r t)
  = match r with
    | inl _ =>
        tryNotify (AddInt32 AliveCount 1
                     (AddInt32 DialInflight (-1) (logEvent (EvDialFunc true) t)))
    | inr _ =>
        tryNotify (AddInt32 DialInflight (-1) (logEvent (EvDialFunc false) t))
    end.
Proof. unfold trackDialEnd, wrapConn. destruct r; reflexivity. Qed.

Lemma step_touched (o : Op) (s : Sys) :
  isReset o = false -> isFire o = false ->
  Touched (coord s) (coord (step o s)).
Proof.
  intros HR HF.
  destruct o as [ | r | i b | | i | i f | ]; try discriminate; unfold step.
  - destruct (fired (coord s) =? 1); simpl; repeat constructor.
  - destruct (dialing s); [constructor|].
    pose proof (trackDialEnd_coord r (coord s)) as E.
    destruct (trackDialEnd r (coord s)) as [t [sc1 | e]]; simpl in *; subst;
      destruct r; repeat constructor.
  - destruct (wrappers s !! i) as [sc|]; [|constructor].
    destruct (Write_coord b sc (coord s)) as [E | [_ E]];
      destruct (Write b sc (coord s)) as [[sc' t] r]; simpl in *; subst;
      repeat constructor.
  - destruct (wrappers s !! i) as [sc|]; [|constructor].
    destruct (Close_coord sc (coord s)) as (t1 & E & [-> | [-> | [_ ->]]]);
      destruct (Close sc (coord s)) as [[sc' t] r]; simpl in *; subst;
      repeat constructor.
  - destruct (wrappers s !! i) as [sc|]; simpl; constructor.
Qed.

(** ** Broadcast channels across rounds *)

Lemma Touched_signal (t t' : Transport) :
  Touched t t' ->
  chans t' = chans t /\ closedChs t' = closedChs t
  /\ fireChAtom t' = fireChAtom t /\ fired t' = fired t.
Proof.
  induction 1 as [ | c d t' _ IH | t' _ IH | e t' _ IH]; auto.
  - destruct c; exact IH.
  - unfold tryNotify. destruct (notifyCh t' <? 1)%nat; exact IH.
Qed.

Lemma NoDup_snoc {A : Type} (l : list A) (x : A) :
  List.NoDup l -> ~ In x l -> List.NoDup (l ++ [x]).
Proof.
  induction 1 as [|y l Hy Hl IH]; intros Hx; simpl.
  - constructor; [intros [] | constructor].
  - constructor.
    + intros Hin. apply in_app_or in Hin as [Hin | [<- | []]]; [auto|].
      apply Hx. left. reflexivity.
    + apply IH. intros Hin. apply Hx. right. exact Hin.
Qed.

Lemma step_channels (o : Op) (s : Sys) :
  ChannelsOk (coord s) -> ChannelsOk (coord (step o s)).
Proof.
  intros (H1 & H2 & H3 & H4).
  destruct (isReset o) eqn:HR; [|destruct (isFire o) eqn:HF].
  - destruct o; try discriminate. unfold step, ChannelsOk. simpl.
    split; [exact H1|]. split; [intros ch Hc; specialize (H2 ch Hc); lia|].
    split; [lia|]. intros _ Hin. specialize (H2 _ Hin). lia.
  - destruct o; try discriminate. unfold step, ChannelsOk, Fire. simpl.
    destruct (Z.eqb_spec (fired (coord s)) 0) as [Hf | Hf]; simpl.
    + split; [apply NoDup_snoc; [exact H1 | exact (H4 Hf)]|].
      split; [|split; [exact H3 | discriminate]].
      intros ch Hin. apply in_app_or in Hin as [Hin | [<- | []]]; auto.
    + repeat split; auto.
  - destruct (Touched_signal _ _ (step_touched o s HR HF)) as (E1 & E2 & E3 & E4).
    unfold ChannelsOk. rewrite E1, E2, E3, E4. auto.
Qed.

(** X5. Over every schedule from a new coordinator, [Reset]s included, no
    broadcast channel is closed twice ([close] never panics), and whenever
    [fired] is 0 the current channel is still open. *)
Theorem channels_closed_once (tr : list Op) :
  List.NoDup (closedChs (coord (run tr initSys)))
  /\ (fired (coord (run tr initSys)) = 0 ->
      chanClosed (fireChAtom (coord (run tr initSys))) (coord (run tr initSys))
      = false).
Proof.
  assert (H : forall s, ChannelsOk (coord s) -> ChannelsOk (coord (run tr s))).
  { induction tr as [|o tr IH]; intros s Hs; [exact Hs|].
    rewrite run_cons. apply IH, step_channels, Hs. }
  assert (Hinit : ChannelsOk (coord initSys)).
  { unfold ChannelsOk. simpl. split; [constructor|].
    split; [intros ch []|]. split; [lia|]. intros _ []. }
  destruct (H initSys Hinit) as (H1 & _ & _ & H4).
  split; [exact H1|].
  intros Hf. unfold chanClosed.
  destruct (existsb _ _) eqn:E; [|reflexivity].
  apply existsb_exists in E as (x & Hx & Heq).
  apply Nat.eqb_eq in Heq. subst x. destruct (H4 Hf Hx).
Qed.

Lemma run_channels (tr : list Op) :
  forall s, ChannelsOk (coord s) -> ChannelsOk (coord (run tr s)).
Proof.
  induction tr as [|o tr IH]; intros s Hs; [exact Hs|].
  rewrite run_cons. apply IH, step_channels, Hs.
Qed.

Lemma initSys_channels : ChannelsOk (coord initSys).
Proof.
  unfold ChannelsOk. simpl. split; [constructor|].
  split; [intros ch []|]. split; [lia|]. intros _ [].
Qed.

(** X6. A wrapper keeps the broadcast channel it saw when it was made.  If its
    round is [Reset] before it was fired, the [Fire] of the next round
    closes another channel: the wrapper's listener stays blocked on its
    [fireCh] case and the wrapper is left exactly as it was, with its byte
    withheld (only [Close] will flush it). *)
Theorem stale_wrapper_not_released (tr : list Op) (i : nat) (sc : StraddleConn) :
  wrappers (run tr initSys) !! i = Some sc ->
  fired (coord (run tr initSys)) = 0 ->
  fireCh sc = fireChAtom (coord (run tr initSys)) ->
  let s' := run [OpReset; OpFire; OpListen i true] (run tr initSys) in
  wrappers s' = wrappers (run tr initSys)
  /\ fired (coord s') = 1
  /\ chanClosed (fireCh sc) (coord s') = false.
Proof.
  intros Hi Hf Hch.
  destruct (run_channels tr initSys initSys_channels) as (_ & H2 & H3 & H4).
  set (s := run tr initSys) in *.
  assert (Hopen : chanClosed (fireCh sc) (Fire (Reset (coord s))) = false).
  { unfold chanClosed, Fire, Reset. simpl. rewrite existsb_app. simpl.
    rewrite orb_false_r. apply orb_false_intro.
    - destruct (existsb _ _) eqn:E; [|reflexivity].
      apply existsb_exists in E as (x & Hx & Heq).
      apply Nat.eqb_eq in Heq. subst x. rewrite Hch in Hx.
      destruct (H4 Hf Hx).
    - apply Nat.eqb_neq. rewrite Hch. lia. }
  assert (Hw : waitForFire true sc (Fire (Reset (coord s))) = sc).
  { unfold waitForFire. rewrite Hopen. destruct (listeners sc =? 0)%nat; reflexivity. }
  assert (E : run [OpReset; OpFire; OpListen i true] s
              = mkSys (Fire (Reset (coord s))) (wrappers s) (dialing s)).
  { unfold run. simpl. unfold step. simpl. rewrite Hi, Hw.
    rewrite list_insert_id by exact Hi. reflexivity. }
  cbv zeta. rewrite E. simpl.
  split; [reflexivity|]. split; [reflexivity | exact Hopen].
Qed.

Lemma stale_wrapper_not_released_witness :
  let tr := dialOk ++ [OpWrite 0 getRequest] in
  let sc := mkStraddleConn
              (mkNetConn [CallWrite (firstn 17 getRequest)] (firstn 17 getRequest)
                 [] None)
              0 false x0a true true 1 in
  (wrappers (run tr initSys) !! 0%nat = Some sc
   /\ fired (coord (run tr initSys)) = 0
   /\ fireCh sc = fireChAtom (coord (run tr initSys)))
  /\ wrappers (run [OpReset; OpFire; OpListen 0 true] (run tr initSys))
     = wrappers (run tr initSys).
Proof.
  intros tr sc.
  assert (E : wrappers (run tr initSys) !! 0%nat = Some sc)
    by (vm_compute; reflexivity).
  split; [split; [exact E | split; reflexivity]|].
  exact (proj1 (stale_wrapper_not_released tr 0 sc E eq_refl eq_refl)).
Defined.

(** ** Notifications *)

Lemma tryNotify_notifyCh (t : Transport) :
  (notifyCh t <= 1)%nat -> notifyCh (tryNotify t) = 1%nat.
Proof.
  intros H. unfold tryNotify.
  destruct (Nat.ltb_spec (notifyCh t) 1); simpl; lia.
Qed.

Lemma Touched_notifyCh (t t' : Transport) :
  Touched t t' -> (notifyCh t <= 1)%nat -> (notifyCh t' <= 1)%nat.
Proof.
  induction 1 as [ | c d t' _ IH | t' _ IH | e t' _ IH]; intros H.
  - exact H.
  - destruct c; simpl; auto.
  - rewrite tryNotify_notifyCh; auto.
  - simpl. auto.
Qed.

(** X7. [tryNotify] never blocks and never queues more than one wake-up: over
    every schedule from a new coordinator the notification channel holds at
    most one item (its capacity), and a [tryNotify] that finds it full
    changes nothing but the record of the call. *)
Theorem notifications_coalesce (tr : list Op) :
  (notifyCh (coord (run tr initSys)) <= 1)%nat
  /\ (forall t, notifyCh t = 1%nat -> tryNotify t = logEvent EvNotify t)
  /\ (forall t, (notifyCh t <= 1)%nat ->
                notifyCh (tryNotify (tryNotify t)) = notifyCh (tryNotify t)).
Proof.
  split; [|split].
  - assert (H : forall s, (notifyCh (coord s) <= 1)%nat ->
                          (notifyCh (coord (run tr s)) <= 1)%nat).
    { induction tr as [|o tr IH]; intros s Hs; [exact Hs|].
      rewrite run_cons. apply IH.
      destruct (isReset o) eqn:HR; [|destruct (isFire o) eqn:HF].
      - destruct o; try discriminate. exact Hs.
      - destruct o; try discriminate. unfold step, Fire. simpl.
        destruct (fired (coord s) =? 0); exact Hs.
      - exact (Touched_notifyCh _ _ (step_touched o s HR HF) Hs). }
    apply H. simpl. lia.
  - intros t Ht. unfold tryNotify. rewrite Ht. reflexivity.
  - intros t Ht. rewrite !tryNotify_notifyCh; auto.
    rewrite tryNotify_notifyCh; auto.
Qed.

Lemma notifications_coalesce_witness :
  notifyCh (coord (run quorumTrace initSys)) = 1%nat
  /\ tryNotify (coord (run quorumTrace initSys))
     = logEvent EvNotify (coord (run quorumTrace initSys)).
Proof.
  split; [reflexivity|].
  exact (proj1 (proj2 (notifications_coalesce []))
           (coord (run quorumTrace initSys)) eq_refl).
Defined.

(** ** After [Fire] *)

Lemma tryNotify_dial (t : Transport) :
  dialStartCount (tryNotify t) = dialStartCount t
  /\ dialInflight (tryNotify t) = dialInflight t.
Proof. unfold tryNotify. destruct (notifyCh t <? 1)%nat; auto. Qed.

Lemma connWrite_fields (p : list byte) (sc : StraddleConn) :
  hasHeld (fst (connWrite p sc)) = hasHeld sc
  /\ held (fst (connWrite p sc)) = held sc
  /\ isCounted (fst (connWrite p sc)) = isCounted sc.
Proof. unfold connWrite. destruct (ConnWrite p (Conn sc)). auto. Qed.

Lemma Write_passthrough (b : list byte) (sc : StraddleConn) (t : Transport) :
  fired t = 1 ->
  snd (fst (Write b sc t)) = t
  /\ hasHeld (fst (fst (Write b sc t))) = hasHeld sc
  /\ calls (Conn (fst (fst (Write b sc t))))
     = calls (Conn sc) ++ (if (length b =? 0)%nat then [] else [CallWrite b]).
Proof.
  intros Hf. unfold Write. rewrite Hf. simpl.
  destruct (length b =? 0)%nat; simpl.
  - rewrite app_nil_r. auto.
  - pose proof (connWrite_fields b sc) as (H1 & _).
    pose proof (ConnWrite_calls b (Conn sc)) as H2.
    unfold connWrite in *. destruct (ConnWrite b (Conn sc)) as [c r].
    simpl in *. auto.
Qed.

Lemma step_after_fire (o : Op) (s : Sys) :
  fired (coord s) = 1 -> isReset o = false ->
  Forall (fun sc => hasHeld sc = false) (wrappers s) ->
  fired (coord (step o s)) = 1
  /\ heldCount (coord (step o s)) = heldCount (coord s)
  /\ Forall (fun sc => hasHeld sc = false) (wrappers (step o s)).
Proof.
  intros Hf HR Hall.
  destruct o as [ | r | i b | | i | i f | ]; try discriminate; unfold step.
  - rewrite Hf. simpl. auto.
  - destruct (dialing s); [auto|].
    pose proof (trackDialEnd_coord r (coord s)) as E.
    unfold trackDialEnd, wrapConn in *.
    destruct r as [c | e]; simpl in *;
      rewrite tryNotify_fired, tryNotify_heldCount; simpl;
      repeat split; auto.
    apply Forall_app. split; [exact Hall|]. constructor; [reflexivity | constructor].
  - destruct (wrappers s !! i) as [sc|] eqn:Hi; [|auto].
    destruct (Write_passthrough b sc (coord s) Hf) as (W1 & W2 & _).
    destruct (Write b sc (coord s)) as [[sc' t] res]. simpl in *. subst t.
    repeat split; auto.
    apply Forall_insert; [exact Hall|]. rewrite W2.
    apply (Forall_lookup_1 _ _ _ _ Hall Hi).
  - simpl. unfold Fire. rewrite Hf. simpl. auto.
  - destruct (wrappers s !! i) as [sc|] eqn:Hi; [|auto].
    destruct (Close_effect sc (coord s)) as (C1 & _ & _ & _ & C5 & C6 & _).
    destruct (Close sc (coord s)) as [[sc' t] res]. simpl in *.
    rewrite C5, C6, Hf. simpl. rewrite andb_false_r.
    repeat split; auto. apply Forall_insert; assumption.
  - destruct (wrappers s !! i) as [sc|] eqn:Hi; [|auto]. simpl.
    repeat split; auto. apply Forall_insert; [exact Hall|].
    apply waitForFire_hasHeld_false, (Forall_lookup_1 _ _ _ _ Hall Hi).
Qed.

(** X8. Once the round is fired and every withheld byte is out, nothing is
    withheld again until [Reset]: over every schedule without [Reset],
    [fired] stays 1, no wrapper (old or newly made) holds a byte, and
    [heldCount] keeps the value it had (closing connections does not take
    from it). *)
Theorem nothing_withheld_after_fire (tr : list Op) (s : Sys) :
  fired (coord s) = 1 ->
  oneRound tr = true ->
  Forall (fun sc => hasHeld sc = false) (wrappers s) ->
  fired (coord (run tr s)) = 1
  /\ heldCount (coord (run tr s)) = heldCount (coord s)
  /\ Forall (fun sc => hasHeld sc = false) (wrappers (run tr s)).
Proof.
  revert s. induction tr as [|o tr IH]; intros s Hf Hr Hall; [auto|].
  simpl in Hr. apply andb_prop in Hr as [Ho Hr]. apply negb_true_iff in Ho.
  rewrite run_cons.
  destruct (step_after_fire o s Hf Ho Hall) as (S1 & S2 & S3).
  destruct (IH _ S1 Hr S3) as (R1 & R2 & R3).
  rewrite R2, S2. auto.
Qed.

Lemma nothing_withheld_after_fire_witness :
  let s := run (dialOk ++ [OpWrite 0 getRequest; OpFire; OpListen 0 true]) initSys in
  let tr := [OpWrite 0 [x61; x62]; OpDialBegin; OpClose 0] in
  (fired (coord s) = 1 /\ oneRound tr = true)
  /\ heldCount (coord (run tr s)) = 1
  /\ Forall (fun sc => hasHeld sc = false) (wrappers (run tr s)).
Proof.
  intros s tr.
  assert (Hall : Forall (fun sc => hasHeld sc = false) (wrappers s)).
  { vm_compute. constructor; [reflexivity | constructor]. }
  split; [split; reflexivity|].
  destruct (nothing_withheld_after_fire tr s eq_refl eq_refl Hall) as (_ & H2 & H3).
  split; [rewrite H2; reflexivity | exact H3].
Defined.

(** ** The dial counters *)

Lemma step_dial_frame (o : Op) (s : Sys) :
  match o with
  | OpWrite _ _ | OpClose _ | OpListen _ _ | OpFire => True
  | _ => False
  end ->
  dialStartCount (coord (step o s)) = dialStartCount (coord s)
  /\ dialInflight (coord (step o s)) = dialInflight (coord s)
  /\ dialing (step o s) = dialing s
  /\ length (wrappers (step o s)) = length (wrappers s).
Proof.
  intros Ho.
  destruct o as [ | r | i b | | i | i f | ]; try contradiction; unfold step.
  - destruct (wrappers s !! i) as [sc|]; [|auto].
    destruct (Write_coord b sc (coord s)) as [E | [_ E]];
      destruct (Write b sc (coord s)) as [[sc' t] res]; simpl in *; subst;
      rewrite ?length_insert; auto.
    destruct (tryNotify_dial (AddInt32 HeldCount 1 (coord s))) as [-> ->].
    auto.
  - simpl. unfold Fire. destruct (fired (coord s) =? 0); auto.
  - destruct (wrappers s !! i) as [sc|]; [|auto].
    destruct (Close_coord sc (coord s)) as (t1 & E & H1).
    destruct (Close sc (coord s)) as [[sc' t] res]; simpl in *; subst.
    rewrite length_insert.
    destruct (tryNotify_dial (AddInt32 AliveCount (-1) t1)) as [-> ->]. simpl.
    destruct H1 as [-> | [-> | [_ ->]]]; auto.
    + destruct (tryNotify_dial (coord s)) as [-> ->]. auto.
    + destruct (tryNotify_dial (AddInt32 HeldCount (-1) (coord s))) as [-> ->].
      auto.
  - destruct (wrappers s !! i) as [sc|]; simpl; rewrite ?length_insert; auto.
Qed.

Lemma run_dial_counters (tr : list Op) :
  forall (s : Sys) (n : Z),
    oneRound tr = true ->
    n + Z.of_nat (length tr) < 2 ^ 31 ->
    dialInflight (coord s) = Z.of_nat (dialing s) ->
    Z.of_nat (dialing s) + Z.of_nat (length (wrappers s))
      <= dialStartCount (coord s) <= n ->
    dialInflight (coord (run tr s)) = Z.of_nat (dialing (run tr s))
    /\ Z.of_nat (dialing (run tr s)) + Z.of_nat (length (wrappers (run tr s)))
       <= dialStartCount (coord (run tr s)) <= n + Z.of_nat (length tr).
Proof.
  induction tr as [|o tr IH]; intros s n Hr Hn Hi Hs.
  - simpl. split; [exact Hi | lia].
  - simpl in Hr. apply andb_prop in Hr as [Ho Hr].
    rewrite run_cons. simpl length in *.
    assert (Hstep : dialInflight (coord (step o s)) = Z.of_nat (dialing (step o s))
                    /\ Z.of_nat (dialing (step o s))
                       + Z.of_nat (length (wrappers (step o s)))
                       <= dialStartCount (coord (step o s)) <= n + 1).
    { destruct o as [ | r | i b | | i | i f | ]; simpl in Ho; try discriminate;
        try match goal with
            | |- context [step ?o s] =>
                destruct (step_dial_frame o s I) as (E1 & E2 & E3 & E4);
                rewrite E1, E2, E3, E4; split; [exact Hi | lia]
            end.
      - unfold step. destruct (fired (coord s) =? 1); [split; [exact Hi | lia]|].
        simpl. rewrite !wrap32_id by (unfold in_int32; lia).
        split; lia.
      - unfold step. destruct (dialing s) as [|d] eqn:Hd.
        + rewrite Hd. split; [exact Hi | lia].
        + destruct r as [c | e']; unfold trackDialEnd, wrapConn; simpl;
            match goal with
            | |- context [tryNotify ?x] =>
                destruct (tryNotify_dial x) as [E1 E2]; rewrite E1, E2
            end; simpl; rewrite ?length_app; simpl;
            rewrite wrap32_id by (unfold in_int32; lia); split; lia. }
    destruct Hstep as [Hi' Hs'].
    destruct (IH (step o s) (n + 1) Hr ltac:(lia) Hi' Hs') as [R1 R2].
    split; [exact R1 | lia].
Qed.

(** X9. In a round (no [Reset]) of fewer than 2^31 steps from a new
    coordinator, [dialInflight] is exactly the number of tracked dials that
    have begun and not yet returned, so it is never negative and is 0 once
    all of them settled; and [dialStartCount] is at least the dials in
    progress plus the wrappers made. *)
Theorem dial_counters (tr : list Op) :
  oneRound tr = true ->
  Z.of_nat (length tr) < 2 ^ 31 ->
  dialInflight (coord (run tr initSys)) = Z.of_nat (dialing (run tr initSys))
  /\ Z.of_nat (dialing (run tr initSys))
     + Z.of_nat (length (wrappers (run tr initSys)))
     <= dialStartCount (coord (run tr initSys)) <= Z.of_nat (length tr).
Proof.
  intros Hr Hn.
  apply (run_dial_counters tr initSys 0 Hr); simpl; lia.
Qed.

Lemma dial_counters_witness :
  let tr := dialOk ++ [OpDialBegin; OpWrite 0 [x61]; OpDialBegin; OpFire;
                       OpDialEnd (inr (Err 4))] in
  (oneRound tr = true /\ Z.of_nat (length tr) < 2 ^ 31)
  /\ dialInflight (coord (run tr initSys)) = 1
  /\ dialStartCount (coord (run tr initSys)) = 3.
Proof.
  intros tr. split; [split; reflexivity|].
  destruct (dial_counters tr eq_refl eq_refl) as [H _].
  split; [rewrite H; reflexivity | reflexivity].
Defined.

(** ** Bytes in, bytes out *)

Lemma writes_simulate (bs : list (list byte)) :
  forall (sc0 : Simple.StraddleConn) (sc : StraddleConn) (t : Transport),
    fired t = 0 -> sameWrapper sc0 sc ->
    sameWrapper (fst (Simple.writes bs sc0)) (fst (fst (writes bs sc t)))
    /\ snd (Simple.writes bs sc0) = snd (writes bs sc t).
Proof.
  induction bs as [|b bs IH]; intros sc0 sc t Hf Hs; [simpl; auto|].
  simpl.
  destruct (Write_simulates b sc0 sc t Hf Hs) as (Hs1 & Hr1 & Hf1).
  destruct (Simple.Write b sc0) as [sc0' r0].
  destruct (Write b sc t) as [[sc' t'] r]. simpl in Hs1, Hr1, Hf1.
  destruct (IH sc0' sc' t' Hf1 Hs1) as (Hs2 & Hr2).
  destruct (Simple.writes bs sc0') as [sc0'' rs0].
  destruct (writes bs sc' t') as [[sc'' t''] rs]. simpl in *.
  subst. auto.
Qed.

Lemma Write_accepting (b : list byte) (sc : StraddleConn) (t : Transport) :
  fired t = 0 -> script (Conn sc) = [] ->
  script (Conn (fst (fst (Write b sc t)))) = []
  /\ wire (Conn (fst (fst (Write b sc t)))) ++ pending (fst (fst (Write b sc t)))
     = wire (Conn sc) ++ pending sc ++ b
  /\ snd (Write b sc t) = (length b, None)
  /\ fired (snd (fst (Write b sc t))) = 0.
Proof.
  intros Hf Hs.
  destruct (Write_effect b sc t Hf) as (W1 & _).
  destruct b as [|x b'].
  { unfold Write. simpl. rewrite !app_nil_r. auto. }
  assert (Hb : x :: b' <> []) by discriminate.
  assert (Hn : nextOutcome (Conn sc) = Accept) by (unfold nextOutcome; rewrite Hs; reflexivity).
  destruct (Write_buffering_spec _ sc t Hf Hb) as (P1 & P2 & _ & _ & P5 & P6 & _).
  rewrite Hn in P5, P6.
  split; [|split; [|split; [exact P6 | exact W1]]].
  - rewrite (Write_buffering _ sc t Hf Hb). cbv zeta.
    destruct (0 <? length _)%nat; [|exact Hs].
    unfold ConnWrite. rewrite Hn, Hs. reflexivity.
  - unfold pending at 1. rewrite P2, P5, <- app_assoc, <- P1. reflexivity.
Qed.

Lemma writes_accepting (bs : list (list byte)) :
  forall (sc : StraddleConn) (t : Transport),
    fired t = 0 -> script (Conn sc) = [] ->
    script (Conn (fst (fst (writes bs sc t)))) = []
    /\ wire (Conn (fst (fst (writes bs sc t)))) ++ pending (fst (fst (writes bs sc t)))
       = wire (Conn sc) ++ pending sc ++ concat bs
    /\ snd (writes bs sc t) = map (fun b => (length b, None)) bs.
Proof.
  induction bs as [|b bs IH]; intros sc t Hf Hs.
  - simpl. rewrite app_nil_r. auto.
  - simpl. destruct (Write_accepting b sc t Hf Hs) as (A1 & A2 & A3 & A4).
    destruct (Write b sc t) as [[sc1 t1] r]. simpl in *.
    destruct (IH sc1 t1 A4 A1) as (B1 & B2 & B3).
    destruct (writes bs sc1 t1) as [[sc2 t2] rs]. simpl in *.
    split; [exact B1|]. split; [|rewrite A3, B3; reflexivity].
    rewrite B2. rewrite app_assoc, A2. rewrite <- !app_assoc. reflexivity.
Qed.

Lemma flushHeld_accepting (sc : StraddleConn) :
  script (Conn sc) = [] ->
  wire (Conn (flushHeld sc)) = wire (Conn sc) ++ pending sc.
Proof.
  intros Hs. unfold flushHeld, pending, connWrite, ConnWrite, nextOutcome.
  rewrite Hs. destruct (hasHeld sc); simpl; [reflexivity|].
  rewrite app_nil_r. reflexivity.
Qed.

(** X10. Over a connection that accepts every write, nothing is lost,
    duplicated or reordered: after any run of [Write] calls in an un-fired
    round, the wire holds everything submitted except the one byte still
    withheld, every call reported its full length, and [release] (or the
    flush of [Close]) completes the wire to exactly the bytes submitted,
    in order.  The same holds for the wrapper of [volley.go]. *)
Theorem bytes_delivered_in_order (bs : list (list byte)) (sc : StraddleConn)
        (t : Transport) :
  fired t = 0 ->
  script (Conn sc) = [] ->
  let sc' := fst (fst (writes bs sc t)) in
  wire (Conn sc') ++ pending sc' = wire (Conn sc) ++ pending sc ++ concat bs
  /\ (length (pending sc') <= 1)%nat
  /\ snd (writes bs sc t) = map (fun b => (length b, None)) bs
  /\ wire (Conn (release sc')) = wire (Conn sc) ++ pending sc ++ concat bs
  /\ (forall t', wire (Conn (fst (fst (Close sc' t'))))
                 = wire (Conn sc) ++ pending sc ++ concat bs)
  /\ (forall sc0 : Simple.StraddleConn,
        sameWrapper sc0 sc ->
        wire (Simple.Conn (Simple.release (fst (Simple.writes bs sc0))))
        = wire (Conn sc) ++ pending sc ++ concat bs
        /\ snd (Simple.writes bs sc0) = map (fun b => (length b, None)) bs).
Proof.
  intros Hf Hs sc'.
  destruct (writes_accepting bs sc t Hf Hs) as (B1 & B2 & B3).
  fold sc' in B1, B2.
  pose proof (flushHeld_accepting sc' B1) as Hfl. rewrite B2 in Hfl.
  split; [exact B2|].
  split; [unfold pending; destruct (hasHeld sc'); simpl; lia|].
  split; [exact B3|]. split; [exact Hfl|]. split.
  - intros t'. unfold Close.
    destruct (isCounted sc'); simpl;
      match goal with
      | |- context [flushHeld ?x] =>
          change (wire (Conn (flushHeld x)) = wire (Conn sc) ++ pending sc ++ concat bs);
          rewrite (flushHeld_accepting x B1)
      end; exact B2.
  - intros sc0 Hsame.
    destruct (writes_simulate bs sc0 sc t Hf Hsame) as ((S1 & S2 & S3) & S4).
    fold sc' in S1, S2, S3.
    split; [|rewrite S4; exact B3].
    unfold Simple.release. rewrite S3, S2, S1.
    pose proof Hfl as Hfl'. unfold release, flushHeld, connWrite in Hfl'.
    destruct (hasHeld sc'); simpl; rewrite ?S1.
    + destruct (ConnWrite [held sc'] (Conn sc')). exact Hfl'.
    + exact Hfl'.
Qed.

Lemma bytes_delivered_in_order_witness :
  let sc := freshWrapper (freshConn []) in
  let bs := [firstn 5 getRequest; []; skipn 5 getRequest] in
  (fired NewTransport = 0 /\ script (Conn sc) = [])
  /\ wire (Conn (fst (fst (writes bs sc NewTransport)))) = firstn 17 getRequest
  /\ wire (Conn (release (fst (fst (writes bs sc NewTransport))))) = getRequest.
Proof.
  intros sc bs. split; [split; reflexivity|].
  destruct (bytes_delivered_in_order bs sc NewTransport eq_refl eq_refl)
    as (_ & _ & _ & H & _).
  split; [vm_compute; reflexivity | exact H].
Defined.

(** ** [Reset] and the next round *)

Lemma step_Write_coord (i : nat) (b : list byte) (s : Sys) (sc : StraddleConn) :
  wrappers s !! i = Some sc ->
  coord (step (OpWrite i b) s) = snd (fst (Write b sc (coord s))).
Proof.
  intros H. unfold step. rewrite H.
  destruct (Write b sc (coord s)) as [[sc' t'] r]. reflexivity.
Qed.

(** X11. [Reset] re-arms the barrier, from any state: right after it [Wait]
    blocks again for every positive [want] that fits [int32]; a dial is
    tracked again and its wrapper takes the fresh channel; a [Write] on it
    withholds again and is counted; and with that one connection held,
    [Wait(ctx, 1)] is satisfied. *)
Theorem Reset_rearms (s : Sys) (c : NetConn) (b : list byte) (want : Z) :
  b <> [] ->
  0 < want < 2 ^ 31 ->
  let s1 := step OpReset s in
  let i := length (wrappers s) in
  let s2 := run [OpDialBegin; OpDialEnd (inl c); OpWrite i b] s1 in
  Wait want (coord s1) [] = None
  /\ Wait 1 (coord s2) [] = Some WaitNil
  /\ dialStartCount (coord s2) = 1 /\ dialInflight (coord s2) = 0
  /\ aliveCount (coord s2) = 1 /\ heldCount (coord s2) = 1
  /\ exists sc,
      wrappers s2 !! i = Some sc
      /\ hasHeld sc = true /\ held sc = List.last b x00
      /\ fireCh sc = chans (coord s)
      /\ chans (coord s2) = S (chans (coord s)).
Proof.
  intros Hb Hw s1 i s2.
  split.
  { subst s1. unfold step, Wait, check. simpl.
    destruct (Z.leb_spec want 0); [lia|].
    rewrite wrap32_id by (unfold in_int32; lia).
    destruct (Z.ltb_spec 0 want); [reflexivity | lia]. }
  remember (tryNotify
              (AddInt32 AliveCount 1
                 (AddInt32 DialInflight (-1)
                    (logEvent (EvDialFunc true)
                       (trackDialBegin (Reset (coord s))))))) as t2 eqn:Et2.
  remember (mkStraddleConn c (chans (coord s)) false x00 false false 0)
    as sc0 eqn:Esc0.
  assert (Ht2 : fireChAtom t2 = chans (coord s)
                /\ dialStartCount t2 = 1 /\ dialInflight t2 = 0
                /\ aliveCount t2 = 1 /\ heldCount t2 = 0 /\ fired t2 = 0
                /\ chans t2 = S (chans (coord s))).
  { subst t2. unfold tryNotify, trackDialBegin, Reset. simpl.
    destruct (notifyCh (coord s) <? 1)%nat; simpl;
      repeat split; vm_compute; reflexivity. }
  destruct Ht2 as (T1 & T2 & T3 & T4 & T5 & T6 & T7).
  assert (E1 : run [OpDialBegin; OpDialEnd (inl c)] s1
               = mkSys t2 (wrappers s ++ [sc0]) (dialing s)).
  { subst s1 sc0. unfold run. simpl. unfold step. simpl.
    unfold trackDialEnd, wrapConn. simpl. rewrite <- Et2, T1. reflexivity. }
  assert (Hi : (wrappers s ++ [sc0]) !! i = Some sc0).
  { subst i. rewrite lookup_app_r by lia. rewrite Nat.sub_diag. reflexivity. }
  assert (E2 : s2 = step (OpWrite i b) (mkSys t2 (wrappers s ++ [sc0]) (dialing s))).
  { subst s2. change [OpDialBegin; OpDialEnd (inl c); OpWrite i b]
      with ([OpDialBegin; OpDialEnd (inl c)] ++ [OpWrite i b]).
    rewrite run_app, E1. reflexivity. }
  clear E1 Et2. clearbody s1 s2. subst s2.
  destruct (Write_buffering_spec b sc0 t2 T6 Hb) as (_ & P2 & P3 & _).
  destruct (Write_effect b sc0 t2 T6) as (_ & W2 & _ & _ & W5).
  destruct (W5 Hb) as [_ W6].
  assert (Hic : isCounted sc0 = false) by (subst sc0; reflexivity).
  rewrite Hic, T5 in W6. rewrite T4 in W2.
  assert (Wf : fireCh (fst (fst (Write b sc0 t2))) = fireCh sc0).
  { rewrite (Write_buffering b sc0 t2 T6 Hb). cbv zeta.
    destruct (0 <? length _)%nat; [|reflexivity].
    destruct (ConnWrite _ _) as [c' [k [e|]]]; reflexivity. }
  assert (Hcoord : dialStartCount (snd (fst (Write b sc0 t2))) = 1
                   /\ dialInflight (snd (fst (Write b sc0 t2))) = 0
                   /\ chans (snd (fst (Write b sc0 t2))) = S (chans (coord s))).
  { destruct (Write_coord b sc0 t2) as [-> | [_ ->]]; [auto|].
    destruct (tryNotify_dial (AddInt32 HeldCount 1 t2)) as [-> ->].
    destruct (Touched_signal t2 (tryNotify (AddInt32 HeldCount 1 t2))
                ltac:(repeat constructor)) as (-> & _).
    auto. }
  destruct Hcoord as (D1 & D2 & D3).
  remember (mkSys t2 (wrappers s ++ [sc0]) (dialing s)) as s' eqn:Es'.
  assert (Hct : coord s' = t2) by (subst s'; reflexivity).
  assert (Hi' : wrappers s' !! i = Some sc0) by (subst s'; exact Hi).
  clear Es'.
  pose proof (step_lookup (OpWrite i b) s' i sc0 Hi') as Hl.
  unfold stepWrapper in Hl. rewrite Nat.eqb_refl, Hct in Hl.
  pose proof (step_Write_coord i b s' sc0 Hi') as Hc. rewrite Hct in Hc.
  rewrite Hc.
  split.
  { unfold Wait, check. rewrite D1, D2, W2, W6. vm_compute. reflexivity. }
  split; [exact D1|]. split; [exact D2|]. split; [exact W2|].
  split; [rewrite W6; vm_compute; reflexivity|].
  exists (fst (fst (Write b sc0 t2))).
  split; [exact Hl|]. split; [exact P2|]. split; [exact P3|].
  split; [rewrite Wf; subst sc0; reflexivity | exact D3].
Qed.

Lemma Reset_rearms_witness :
  let s := run (quorumTrace ++ [OpFire; OpListen 0 true; OpListen 1 true]) initSys in
  (getRequest <> [] /\ 0 < 1 < 2 ^ 31)
  /\ Wait 1 (coord (step OpReset s)) [] = None
  /\ Wait 1 (coord (run [OpDialBegin; OpDialEnd (inl (freshConn []));
                         OpWrite (length (wrappers s)) getRequest]
                     (step OpReset s))) []
     = Some WaitNil.
Proof.
  intros s.
  assert (Hb : getRequest <> []) by discriminate.
  assert (Hw : 0 < 1 < 2 ^ 31) by (split; reflexivity).
  split; [split; [exact Hb | exact Hw]|].
  destruct (Reset_rearms s (freshConn []) getRequest 1 Hb Hw) as (H1 & H2 & _).
  split; [exact H1 | exact H2].
Defined.

(** ** A flush that fails *)

(** X12. [release] and [Close] drop the error of their flush.  When the write
    of the withheld byte fails, [hasHeld] is cleared all the same, the
    wire gets only what the connection accepted (nothing, for a failure
    after 0 bytes), no later [release] or [Close] tries again, and [Close]
    still closes the connection and returns only the error of the
    connection's own [Close]. *)
Theorem failed_flush_is_dropped (sc : StraddleConn) (t : Transport)
        (n : nat) (e : error) :
  hasHeld sc = true ->
  nextOutcome (Conn sc) = Fail n e ->
  (hasHeld (release sc) = false
   /\ wire (Conn (release sc)) = wire (Conn sc) ++ firstn n [held sc]
   /\ release (release sc) = release sc)
  /\ (hasHeld (fst (fst (Close sc t))) = false
      /\ wire (Conn (fst (fst (Close sc t)))) = wire (Conn sc) ++ firstn n [held sc]
      /\ snd (Close sc t) = closeErr (Conn sc)
      /\ connClosed (Conn (fst (fst (Close sc t)))) = true
      /\ wire (Conn (release (fst (fst (Close sc t)))))
         = wire (Conn sc) ++ firstn n [held sc]).
Proof.
  intros Hh Hn.
  assert (Hfl : forall x, hasHeld x = true -> Conn x = Conn sc -> held x = held sc ->
                  hasHeld (flushHeld x) = false
                  /\ wire (Conn (flushHeld x)) = wire (Conn sc) ++ firstn n [held sc]
                  /\ closeErr (Conn (flushHeld x)) = closeErr (Conn sc)).
  { intros x H1 H2 H3. unfold flushHeld, connWrite, ConnWrite.
    rewrite H1, H2, H3, Hn. simpl. auto. }
  split.
  - unfold release. destruct (Hfl sc Hh eq_refl eq_refl) as (F1 & F2 & _).
    split; [exact F1|]. split; [exact F2|].
    unfold flushHeld at 1. rewrite F1. reflexivity.
  - pose proof (Close_closes sc t) as Hc.
    destruct (Close_effect sc t) as (C1 & _).
    assert (Hx : wire (Conn (fst (fst (Close sc t))))
                 = wire (Conn sc) ++ firstn n [held sc]
                 /\ snd (Close sc t) = closeErr (Conn sc)).
    { unfold Close.
      destruct (isCounted sc); simpl;
        match goal with
        | |- context [flushHeld ?x] =>
            destruct (Hfl x Hh eq_refl eq_refl) as (_ & F2 & F3)
        end; simpl in *; rewrite F2, F3; auto. }
    destruct Hx as [Hx1 Hx2].
    repeat (split; [assumption|]).
    unfold release, flushHeld. rewrite C1. exact Hx1.
Qed.

Lemma failed_flush_is_dropped_witness :
  let sc := fst (fst (Write [x61; x62] (freshWrapper (freshConn [Accept; Fail 0 (Err 9)]))
                        NewTransport)) in
  (hasHeld sc = true /\ nextOutcome (Conn sc) = Fail 0 (Err 9))
  /\ wire (Conn (fst (fst (Close sc NewTransport)))) = [x61]
  /\ snd (Close sc NewTransport) = None.
Proof.
  intros sc. split; [split; reflexivity|].
  destruct (failed_flush_is_dropped sc NewTransport 0 (Err 9) eq_refl eq_refl)
    as (_ & _ & H2 & H3 & _).
  split; [exact H2 | exact H3].
Defined.

(** ** The server name of a TLS dial *)

Lemma LastIndex_absent (sep : byte) (s : list byte) :
  ~ In sep s -> LastIndex sep s = -1.
Proof.
  induction s as [|x s IH]; intros Hn; [reflexivity|]. simpl.
  rewrite IH by (intros H; apply Hn; right; exact H). simpl.
  destruct (Byte.eqb x sep) eqn:E; [|reflexivity].
  apply Byte.byte_dec_bl in E. subst. destruct Hn. left. reflexivity.
Qed.

Lemma LastIndex_last (sep : byte) (h p : list byte) :
  ~ In sep p -> LastIndex sep (h ++ sep :: p) = Z.of_nat (length h).
Proof.
  intros Hp. induction h as [|x h IH].
  - simpl. rewrite (LastIndex_absent sep p Hp). simpl.
    rewrite (@Byte.byte_dec_lb sep sep eq_refl). reflexivity.
  - simpl app. simpl LastIndex. rewrite IH.
    destruct (Z.geb_spec (Z.of_nat (length h)) 0) as [_ | H]; [|lia].
    simpl length. lia.
Qed.

Lemma tlsServerName_host (host port : list byte) :
  host <> [] -> ~ In x3a port ->
  tlsServerName [] (host ++ x3a :: port) = host.
Proof.
  intros Hh Hp. unfold tlsServerName.
  rewrite (LastIndex_last x3a host port Hp).
  destruct host as [|x host']; [congruence|].
  destruct (Z.gtb_spec (Z.of_nat (length (x :: host'))) 0) as [_ | H];
    [|simpl length in H; lia].
  rewrite Nat2Z.id. apply take_app_length.
Qed.

(** X13. The TLS dial of [src/unnamed/part_000] derives the server name from
    the dialed address by cutting at the last colon: for a non-empty host
    (which may itself contain colons, as a bracketed IPv6 literal does)
    followed by a colon and a colon-free port, it is the host; an address
    without colon, or whose only colon is its first byte, is taken whole;
    and a configured server name is never replaced. *)
Theorem tlsServerName_cuts_port (host port : list byte) :
  host <> [] ->
  ~ In x3a port ->
  tlsServerName [] (host ++ x3a :: port) = host
  /\ tlsServerName [] port = port
  /\ tlsServerName [] (x3a :: port) = x3a :: port
  /\ (forall cfg addr, cfg <> [] -> tlsServerName cfg addr = cfg).
Proof.
  intros Hh Hp. unfold tlsServerName.
  split; [|split; [|split]].
  - rewrite (LastIndex_last x3a host port Hp).
    destruct host as [|x host']; [congruence|].
    destruct (Z.gtb_spec (Z.of_nat (length (x :: host'))) 0) as [_ | H];
      [|simpl length in H; lia].
    rewrite Nat2Z.id. apply take_app_length.
  - rewrite (LastIndex_absent x3a port Hp). reflexivity.
  - change (x3a :: port) with ([] ++ x3a :: port) at 1.
    rewrite (LastIndex_last x3a [] port Hp). reflexivity.
  - intros cfg addr Hc. destruct cfg; [congruence | reflexivity].
Qed.

Lemma tlsServerName_cuts_port_witness :
  (* "[::1]:443" *)
  let host := [x5b; x3a; x3a; x31; x5d] in
  let port := [x34; x34; x33] in
  (host <> [] /\ ~ In x3a port)
  /\ tlsServerName [] (host ++ x3a :: port) = host.
Proof.
  intros host port.
  assert (Hh : host <> []) by discriminate.
  assert (Hp : ~ In x3a port).
  { intros [H | [H | [H | []]]]; discriminate. }
  split; [split; assumption|].
  exact (proj1 (tlsServerName_cuts_port host port Hh Hp)).
Defined.

Lemma beforeFirst_first (sep : byte) (h rest : list byte) :
  ~ In sep h -> Registry.beforeFirst sep (h ++ sep :: rest) = h.
Proof.
  induction h as [|x h IH]; intros Hn; simpl.
  - rewrite (@Byte.byte_dec_lb sep sep eq_refl). reflexivity.
  - destruct (Byte.eqb x sep) eqn:E.
    + apply Byte.byte_dec_bl in E. subst. destruct Hn. left. reflexivity.
    + rewrite IH; [reflexivity|]. intros H. apply Hn. right. exact H.
Qed.

Lemma beforeFirst_absent (sep : byte) (s : list byte) :
  ~ In sep s -> Registry.beforeFirst sep s = s.
Proof.
  induction s as [|x s IH]; intros Hn; simpl; [reflexivity|].
  destruct (Byte.eqb x sep) eqn:E.
  - apply Byte.byte_dec_bl in E. subst. destruct Hn. left. reflexivity.
  - rewrite IH; [reflexivity|]. intros H. apply Hn. right. exact H.
Qed.

(** X14. The TLS dial of [src/volley.go] cuts the address at its first colon
    instead.  For a colon-free host and port both versions give the host;
    but when the host contains a colon, this one keeps only what precedes
    the first colon of the host, where the other keeps the whole host. *)
Theorem tlsServerName_first_colon (h1 h2 port : list byte) :
  ~ In x3a h1 ->
  ~ In x3a port ->
  Registry.tlsServerName [] (h1 ++ x3a :: port) = h1
  /\ (h1 <> [] -> tlsServerName [] (h1 ++ x3a :: port) = h1)
  /\ Registry.tlsServerName [] ((h1 ++ x3a :: h2) ++ x3a :: port) = h1
  /\ tlsServerName [] ((h1 ++ x3a :: h2) ++ x3a :: port) = h1 ++ x3a :: h2
  /\ Registry.tlsServerName [] port = port.
Proof.
  intros H1 Hp. unfold Registry.tlsServerName.
  split; [apply beforeFirst_first, H1|].
  split; [intros Hne; apply (tlsServerName_host h1 port Hne Hp)|].
  split; [rewrite <- app_assoc; apply beforeFirst_first, H1|].
  split; [|apply beforeFirst_absent, Hp].
  apply (tlsServerName_host (h1 ++ x3a :: h2) port); [|exact Hp].
  intros H. apply app_eq_nil in H as [_ H]. discriminate.
Qed.

Lemma tlsServerName_first_colon_witness :
  (* "[::1]:443" *)
  let h1 := [x5b] in
  let h2 := [x3a; x31; x5d] in
  let port := [x34; x34; x33] in
  (~ In x3a h1 /\ ~ In x3a port)
  /\ Registry.tlsServerName [] ((h1 ++ x3a :: h2) ++ x3a :: port) = [x5b]
  /\ tlsServerName [] ((h1 ++ x3a :: h2) ++ x3a :: port) = [x5b; x3a; x3a; x31; x5d].
Proof.
  intros h1 h2 port.
  assert (H1 : ~ In x3a h1) by (intros [H | []]; discriminate).
  assert (Hp : ~ In x3a port).
  { intros [H | [H | [H | []]]]; discriminate. }
  split; [split; assumption|].
  destruct (tlsServerName_first_colon h1 h2 port H1 Hp) as (_ & _ & A & B & _).
  split; [exact A | exact B].
Defined.

(** ** The registry of [volley.go] *)

Lemma Simple_release_idempotent (sc : Simple.StraddleConn) :
  Simple.release (Simple.release sc) = Simple.release sc.
Proof.
  unfold Simple.release. destruct (Simple.hasHeld sc) eqn:E; simpl; [reflexivity|].
  rewrite E. reflexivity.
Qed.

Lemma releaseAll_lookup (l : list nat) :
  forall (h : list Registry.Entry) (c : nat),
    Registry.releaseAll l h !! c
    = if existsb (Nat.eqb c) l
      then (fun e => Registry.mkEntry (Simple.release (Registry.conn e))
                       (Registry.owner e)) <$> h !! c
      else h !! c.
Proof.
  induction l as [|x l IH]; intros h c; [reflexivity|].
  unfold Registry.releaseAll in *. simpl. rewrite IH.
  unfold Registry.releaseAt.
  destruct (Nat.eqb_spec c x) as [-> | Hne]; simpl.
  - rewrite list_lookup_alter_eq.
    destruct (existsb (Nat.eqb x) l); [|reflexivity].
    destruct (h !! x) as [e|]; simpl; [|reflexivity].
    rewrite Simple_release_idempotent. reflexivity.
  - rewrite list_lookup_alter_ne by auto. reflexivity.
Qed.

Lemma existsb_Permutation (c : nat) (l l' : list nat) :
  Permutation l l' -> existsb (Nat.eqb c) l = existsb (Nat.eqb c) l'.
Proof.
  intros HP.
  destruct (existsb (Nat.eqb c) l) eqn:E1, (existsb (Nat.eqb c) l') eqn:E2;
    try reflexivity.
  - apply existsb_exists in E1 as (x & Hx & Hc).
    assert (H : existsb (Nat.eqb c) l' = true).
    { apply existsb_exists. exists x. split; [|exact Hc].
      apply (Permutation_in _ HP Hx). }
    congruence.
  - apply existsb_exists in E2 as (x & Hx & Hc).
    assert (H : existsb (Nat.eqb c) l = true).
    { apply existsb_exists. exists x. split; [|exact Hc].
      apply (Permutation_in _ (Permutation_sym HP) Hx). }
    congruence.
Qed.

Lemma existsb_delete_other (x : nat) (k : nat) (l : list nat) (c : nat) :
  l !! k = Some c -> x <> c ->
  existsb (Nat.eqb x) (delete k l) = existsb (Nat.eqb x) l.
Proof.
  revert k. induction l as [|y l IH]; intros [|k] Hk Hne; simpl in *;
    try discriminate.
  - injection Hk as ->. destruct (Nat.eqb_spec x c); [contradiction | reflexivity].
  - rewrite (IH k Hk Hne). reflexivity.
Qed.

Lemma settle_runRelease (k : nat) (t : Registry.Transport) :
  Registry.settle (Registry.runRelease k t) = Registry.settle t.
Proof.
  unfold Registry.runRelease.
  destruct (Registry.spawned t !! k) as [c|] eqn:Hk; [|reflexivity].
  unfold Registry.settle. simpl. f_equal.
  apply list_eq. intros x. rewrite !releaseAll_lookup.
  unfold Registry.releaseAt.
  destruct (Nat.eq_dec x c) as [-> | Hne].
  - rewrite list_lookup_alter_eq.
    assert (Hin : existsb (Nat.eqb c) (Registry.spawned t) = true).
    { apply existsb_exists. exists c. split; [|apply Nat.eqb_refl].
      apply list_elem_of_In. apply list_elem_of_lookup. eauto. }
    rewrite Hin.
    destruct (existsb (Nat.eqb c) (delete k (Registry.spawned t))); [|reflexivity].
    destruct (Registry.heap t !! c) as [e|]; simpl; [|reflexivity].
    rewrite Simple_release_idempotent. reflexivity.
  - rewrite list_lookup_alter_ne by auto.
    rewrite (existsb_delete_other x k _ c Hk Hne). reflexivity.
Qed.

(** X15. [Fire] of [volley.go] empties the registry and releases every
    registered wrapper: [Fire] itself only takes the slice and starts one
    release goroutine per address; once these have run, each registered
    wrapper ends with [hasHeld] cleared and its withheld byte, if it had
    one, handed to its connection once; wrappers that are not registered
    (and have no release pending) are not touched.  The order in which the
    release goroutines run does not matter, and a second [Fire] changes
    nothing. *)
Theorem Registry_Fire_releases_all (t : Registry.Transport) :
  Registry.conns (Registry.Fire t) = []
  /\ Registry.heap (Registry.Fire t) = Registry.heap t
  /\ Registry.spawned (Registry.Fire t) = Registry.spawned t ++ Registry.conns t
  /\ (forall c e,
        Registry.heap t !! c = Some e ->
        In c (Registry.conns t) ->
        exists e',
          Registry.heap (Registry.settle (Registry.Fire t)) !! c = Some e'
          /\ Simple.hasHeld (Registry.conn e') = false
          /\ calls (Simple.Conn (Registry.conn e'))
             = calls (Simple.Conn (Registry.conn e))
                 ++ (if Simple.hasHeld (Registry.conn e)
                     then [CallWrite [Simple.held (Registry.conn e)]] else []))
  /\ (forall c,
        ~ In c (Registry.conns t) ->
        ~ In c (Registry.spawned t) ->
        Registry.heap (Registry.settle (Registry.Fire t)) !! c
        = Registry.heap t !! c)
  /\ (forall l',
        Permutation (Registry.spawned (Registry.Fire t)) l' ->
        Registry.releaseAll l' (Registry.heap t)
        = Registry.heap (Registry.settle (Registry.Fire t)))
  /\ (forall k,
        Registry.settle (Registry.runRelease k (Registry.Fire t))
        = Registry.settle (Registry.Fire t))
  /\ Registry.Fire (Registry.Fire t) = Registry.Fire t
  /\ Registry.settle (Registry.Fire (Registry.settle (Registry.Fire t)))
     = Registry.settle (Registry.Fire t).
Proof.
  split; [reflexivity|]. split; [reflexivity|]. split; [reflexivity|].
  split; [|split; [|split; [|split; [|split]]]].
  - intros c e Hc Hin. unfold Registry.settle, Registry.Fire. simpl.
    rewrite releaseAll_lookup, Hc.
    assert (H : existsb (Nat.eqb c) (Registry.spawned t ++ Registry.conns t) = true).
    { apply existsb_exists. exists c.
      split; [apply in_or_app; right; exact Hin | apply Nat.eqb_refl]. }
    rewrite H. simpl. eexists. split; [reflexivity|]. simpl.
    unfold Simple.release.
    destruct (Simple.hasHeld (Registry.conn e)) eqn:E; simpl.
    + split; [reflexivity | apply ConnWrite_calls].
    + rewrite E, app_nil_r. auto.
  - intros c Hn Hs. unfold Registry.settle, Registry.Fire. simpl.
    rewrite releaseAll_lookup.
    destruct (existsb _ _) eqn:E; [|reflexivity].
    apply existsb_exists in E as (x & Hx & Heq).
    apply Nat.eqb_eq in Heq. subst.
    apply in_app_or in Hx as [Hx | Hx]; contradiction.
  - intros l' HP. unfold Registry.settle, Registry.Fire in *. simpl in *.
    apply list_eq. intros c. rewrite !releaseAll_lookup.
    rewrite (existsb_Permutation c _ _ HP). reflexivity.
  - intros k. apply settle_runRelease.
  - unfold Registry.Fire. simpl. rewrite app_nil_r. reflexivity.
  - reflexivity.
Qed.

Lemma Simple_Write_holds (b : list byte) (sc : Simple.StraddleConn) :
  b <> [] ->
  Simple.hasHeld (fst (Simple.Write b sc)) = true
  /\ Simple.held (fst (Simple.Write b sc)) = List.last b x00.
Proof.
  intros Hb. rewrite (Simple_Write_buffering b sc Hb). cbv zeta.
  rewrite (payload_last _ b Hb).
  destruct (0 <? length _)%nat; [|auto].
  destruct (ConnWrite _ _) as [c' [k [e|]]]; auto.
Qed.

Lemma Registry_Write_holds (c : nat) (b : list byte) (t : Registry.Transport)
      (e : Registry.Entry) :
  Registry.heap t !! c = Some e ->
  b <> [] ->
  Registry.conns (fst (Registry.Write c b t)) = Registry.conns t
  /\ Registry.spawned (fst (Registry.Write c b t)) = Registry.spawned t
  /\ Registry.heap (fst (Registry.Write c b t)) !! c
     = Some (Registry.mkEntry (fst (Simple.Write b (Registry.conn e)))
               (Registry.owner e))
  /\ Simple.hasHeld (fst (Simple.Write b (Registry.conn e))) = true
  /\ Simple.held (fst (Simple.Write b (Registry.conn e))) = List.last b x00.
Proof.
  intros Hc Hb. destruct (Simple_Write_holds b (Registry.conn e) Hb) as [W1 W2].
  unfold Registry.Write. rewrite Hc.
  destruct (Simple.Write b (Registry.conn e)) as [sc' r]. simpl in *.
  repeat split; auto.
  apply list_lookup_insert_eq, (lookup_lt_Some _ _ _ Hc).
Qed.

(** X16. [Fire] of [volley.go] forgets the connections it released.  Once
    the release goroutine of a connection has run, a [Write] on it
    withholds its last byte again, and no later [Fire] releases it, since
    the connection is no longer registered; the byte leaves only when the
    connection is closed.  A [Write] that gets in after [Fire] returned
    and before the pending release goroutine ran is withheld too, and
    that goroutine then flushes the new byte. *)
Theorem Registry_Fire_forgets (t : Registry.Transport) (c : nat)
        (e : Registry.Entry) (b : list byte) :
  Registry.heap t !! c = Some e ->
  b <> [] ->
  (let t2 := fst (Registry.Write c b (Registry.settle (Registry.Fire t))) in
   exists e2,
     Registry.heap t2 !! c = Some e2
     /\ Registry.heap (Registry.settle (Registry.Fire t2)) !! c = Some e2
     /\ Simple.hasHeld (Registry.conn e2) = true
     /\ Simple.held (Registry.conn e2) = List.last b x00
     /\ exists e3,
         Registry.heap
           (fst (Registry.Close c (Registry.settle (Registry.Fire t2)))) !! c
         = Some e3
         /\ calls (Simple.Conn (Registry.conn e3))
            = calls (Simple.Conn (Registry.conn e2))
                ++ [CallWrite [List.last b x00]; CallClose])
  /\ (In c (Registry.conns t) ->
      let t2 := fst (Registry.Write c b (Registry.Fire t)) in
      exists e2 e3,
        Registry.heap t2 !! c = Some e2
        /\ Simple.hasHeld (Registry.conn e2) = true
        /\ Simple.held (Registry.conn e2) = List.last b x00
        /\ Registry.heap (Registry.settle t2) !! c = Some e3
        /\ Simple.hasHeld (Registry.conn e3) = false
        /\ calls (Simple.Conn (Registry.conn e3))
           = calls (Simple.Conn (Registry.conn e2)) ++ [CallWrite [List.last b x00]]).
Proof.
  intros Hc Hb. split.
  - intros t2.
    assert (H1 : exists e1,
               Registry.heap (Registry.settle (Registry.Fire t)) !! c = Some e1).
    { unfold Registry.settle, Registry.Fire. simpl. rewrite releaseAll_lookup, Hc.
      destruct (existsb _ _); simpl; eauto. }
    destruct H1 as [e1 H1].
    destruct (Registry_Write_holds c b _ e1 H1 Hb) as (Wc & Ws & Wl & W1 & W2).
    fold t2 in Wc, Ws, Wl. simpl in Wc, Ws.
    assert (Hs : Registry.settle (Registry.Fire t2)
                 = Registry.mkTransport [] (Registry.heap t2) []).
    { unfold Registry.settle, Registry.Fire. rewrite Wc, Ws. reflexivity. }
    eexists. split; [exact Wl|]. rewrite Hs. simpl.
    split; [exact Wl|]. split; [exact W1|]. split; [exact W2|].
    unfold Registry.Close. simpl. rewrite Wl. simpl.
    unfold Simple.release. rewrite W1, W2. simpl.
    pose proof (ConnWrite_calls [List.last b x00]
                  (Simple.Conn (fst (Simple.Write b (Registry.conn e1))))) as Hcw.
    destruct (ConnWrite _ _) as [c1 r1]. simpl in *.
    destruct (Registry.owner e1); simpl;
      (eexists; split;
       [apply list_lookup_insert_eq, (lookup_lt_Some _ _ _ Wl)|]);
      simpl; rewrite Hcw, <- app_assoc; reflexivity.
  - intros Hin t2.
    assert (H1 : Registry.heap (Registry.Fire t) !! c = Some e) by exact Hc.
    destruct (Registry_Write_holds c b _ e H1 Hb) as (Wc & Ws & Wl & W1 & W2).
    fold t2 in Wc, Ws, Wl. simpl in Ws.
    eexists. eexists. split; [exact Wl|]. split; [exact W1|]. split; [exact W2|].
    unfold Registry.settle. simpl. rewrite releaseAll_lookup, Wl, Ws.
    assert (H : existsb (Nat.eqb c) (Registry.spawned t ++ Registry.conns t) = true).
    { apply existsb_exists. exists c.
      split; [apply in_or_app; right; exact Hin | apply Nat.eqb_refl]. }
    rewrite H. simpl. split; [reflexivity|]. simpl.
    unfold Simple.release. rewrite W1, W2. simpl.
    split; [reflexivity | apply ConnWrite_calls].
Qed.

Lemma Registry_Fire_forgets_witness :
  let t := fst (Registry.dial (freshConn []) Registry.NewTransport) in
  let e := Registry.mkEntry (Simple.newStraddleConn (freshConn [])) true in
  (Registry.heap t !! 0%nat = Some e /\ [x61; x62] <> []
   /\ In 0%nat (Registry.conns t))
  /\ (exists e2,
        Registry.heap
          (Registry.settle
             (Registry.Fire
                (fst (Registry.Write 0 [x61; x62]
                        (Registry.settle (Registry.Fire t))))))
          !! 0%nat = Some e2
        /\ Simple.hasHeld (Registry.conn e2) = true)
  /\ (exists e3,
        Registry.heap
          (Registry.settle (fst (Registry.Write 0 [x61; x62] (Registry.Fire t))))
          !! 0%nat = Some e3
        /\ Simple.hasHeld (Registry.conn e3) = false).
Proof.
  intros t e.
  assert (Hb : [x61; x62] <> []) by discriminate.
  assert (Hin : In 0%nat (Registry.conns t)) by (left; reflexivity).
  split; [split; [reflexivity | split; [exact Hb | exact Hin]]|].
  destruct (Registry_Fire_forgets t 0 e [x61; x62] eq_refl Hb) as [HA HB].
  split.
  - destruct HA as (e2 & _ & H2 & H3 & _).
    exists e2. split; [exact H2 | exact H3].
  - destruct (HB Hin) as (e2 & e3 & _ & _ & _ & H4 & H5 & _).
    exists e3. split; [exact H4 | exact H5].
Defined.

Lemma removeFirst_fresh (c : nat) (l : list nat) :
  ~ In c l ->
  Registry.removeFirst c (l ++ [c]) = l /\ Registry.removeFirst c l = l.
Proof.
  induction l as [|x l IH]; intros Hn; simpl.
  - rewrite Nat.eqb_refl. auto.
  - destruct (Nat.eqb_spec x c) as [-> | Hne];
      [destruct Hn; left; reflexivity|].
    destruct IH as [I1 I2]; [intros H; apply Hn; right; exact H|].
    rewrite I1, I2. auto.
Qed.

(** X17. Dial and [Close] on the registry of [volley.go] undo each other: when
    the registry only holds addresses of existing wrappers, a dial
    registers the new wrapper last, [Close] on it closes its connection,
    returns the connection's error and leaves the registry as it was
    before the dial; a second [Close] leaves the registry alone (and
    closes the connection once more). *)
Theorem Registry_dial_Close (raw : NetConn) (t : Registry.Transport) :
  (forall x, In x (Registry.conns t) -> (x < length (Registry.heap t))%nat) ->
  let t1 := fst (Registry.dial raw t) in
  let c := snd (Registry.dial raw t) in
  Registry.conns t1 = Registry.conns t ++ [c]
  /\ Registry.heap t1 !! c
     = Some (Registry.mkEntry (Simple.newStraddleConn raw) true)
  /\ Registry.conns (fst (Registry.Close c t1)) = Registry.conns t
  /\ snd (Registry.Close c t1) = closeErr raw
  /\ (exists e,
        Registry.heap (fst (Registry.Close c t1)) !! c = Some e
        /\ calls (Simple.Conn (Registry.conn e)) = calls raw ++ [CallClose])
  /\ Registry.conns (fst (Registry.Close c (fst (Registry.Close c t1))))
     = Registry.conns t.
Proof.
  intros Hin t1 c.
  assert (Hfresh : ~ In (length (Registry.heap t)) (Registry.conns t)).
  { intros H. specialize (Hin _ H). lia. }
  destruct (removeFirst_fresh _ _ Hfresh) as [R1 R2].
  assert (Hl : Registry.heap t1 !! c
               = Some (Registry.mkEntry (Simple.newStraddleConn raw) true)).
  { subst t1 c. unfold Registry.dial, Registry.register. simpl.
    rewrite list_lookup_alter_eq, lookup_app_r, Nat.sub_diag by lia.
    reflexivity. }
  assert (Hlt : (c < length (Registry.heap t1))%nat)
    by (apply (lookup_lt_Some _ _ _ Hl)).
  split; [reflexivity|]. split; [exact Hl|].
  assert (E : Registry.Close c t1
              = (Registry.mkTransport (Registry.conns t)
                   (<[c := Registry.mkEntry
                             (Simple.mkStraddleConn
                                (fst (ConnClose raw)) x00 false) true]>
                      (Registry.heap t1))
                   (Registry.spawned t),
                 closeErr raw)).
  { unfold Registry.Close. rewrite Hl. simpl.
    unfold Registry.unregister. simpl. subst c. simpl. rewrite R1. reflexivity. }
  rewrite E. simpl.
  split; [reflexivity|]. split; [reflexivity|]. split.
  - eexists. split; [apply list_lookup_insert_eq, Hlt | reflexivity].
  - unfold Registry.Close. simpl.
    rewrite list_lookup_insert_eq by exact Hlt. simpl.
    unfold Registry.unregister. simpl. subst c. simpl. rewrite R2. reflexivity.
Qed.

Lemma Registry_dial_Close_witness :
  let t := fst (Registry.dial (freshConn []) Registry.NewTransport) in
  let raw := mkNetConn [] [] [] (Some (Err 3)) in
  (forall x, In x (Registry.conns t) -> (x < length (Registry.heap t))%nat)
  /\ Registry.conns (fst (Registry.Close 1 (fst (Registry.dial raw t)))) = [0%nat]
  /\ snd (Registry.Close 1 (fst (Registry.dial raw t))) = Some (Err 3).
Proof.
  intros t raw.
  assert (H : forall x, In x (Registry.conns t) -> (x < length (Registry.heap t))%nat).
  { intros x [<- | []]. simpl. lia. }
  split; [exact H|].
  destruct (Registry_dial_Close raw t H) as (_ & _ & H3 & H4 & _).
  split; [exact H3 | exact H4].
Defined.

(** ** Every withheld byte has its listener *)

Lemma traceOk_app (tr1 tr2 : list Op) (s : Sys) :
  traceOk (tr1 ++ tr2) s = traceOk tr1 s && traceOk tr2 (run tr1 s).
Proof.
  revert s. induction tr1 as [|o tr1 IH]; intros s; simpl; [reflexivity|].
  rewrite IH, andb_assoc. reflexivity.
Qed.

Lemma Close_channels (sc : StraddleConn) (t : Transport) :
  fireCh (fst (fst (Close sc t))) = fireCh sc.
Proof.
  unfold Close.
  destruct (isCounted sc); simpl;
    match goal with
    | |- fireCh (flushHeld ?x) = _ =>
        destruct (flushHeld_effect x) as (_ & _ & _ & _ & F5 & _); exact F5
    end.
Qed.

Lemma Write_listening (ch : nat) (b : list byte) (sc : StraddleConn)
      (t : Transport) :
  fired t = 0 ->
  connClosed (Conn sc) = false ->
  Listening ch sc ->
  Listening ch (fst (fst (Write b sc t))).
Proof.
  intros Hf Ho (L1 & L2 & L3 & L4).
  destruct b as [|x b']; [exact (conj L1 (conj L2 (conj L3 L4)))|].
  assert (Hb : x :: b' <> []) by discriminate.
  pose proof (Write_connClosed (x :: b') sc t) as Hcc.
  assert (Hcl : closeCh sc = false).
  { destruct (closeCh sc); [|reflexivity]. rewrite L2 in Ho; [discriminate|reflexivity]. }
  assert (Hls : (0 < (if isCounted sc then listeners sc else S (listeners sc)))%nat).
  { destruct (isCounted sc); [apply L4; reflexivity | lia]. }
  rewrite (Write_buffering _ sc t Hf Hb) in *. cbv zeta in *.
  destruct (0 <? length _)%nat;
    [destruct (ConnWrite _ (Conn sc)) as [c' [k [e|]]]|];
    unfold Listening; simpl in *; (split; [exact L1|]); (split; [congruence|]);
    (split; [reflexivity|]); intros _; (split; [exact Hls|]);
    (split; [exact Hcl | congruence]).
Qed.

Lemma stepWrapper_listening (ch : nat) (o : Op) (i : nat) (sc : StraddleConn)
      (t : Transport) :
  fired t = 0 ->
  closedChs t = [] ->
  (isWriteOn i o = true -> connClosed (Conn sc) = false) ->
  Listening ch sc ->
  Listening ch (stepWrapper o i sc t).
Proof.
  intros Hf Hcs Ho L.
  destruct o as [ | r | j b | | j | j f | ]; simpl in *; auto.
  - destruct (j =? i)%nat; [|exact L].
    apply Write_listening; auto.
  - destruct (j =? i)%nat; [|exact L].
    destruct L as (L1 & _).
    destruct (Close_effect sc t) as (C1 & _ & C3 & _).
    split; [rewrite Close_channels; exact L1|].
    split; [intros _; apply Close_closes|].
    split; [rewrite C1; discriminate | rewrite C3; discriminate].
  - destruct (j =? i)%nat; [|exact L].
    unfold waitForFire, chanClosed. rewrite Hcs. simpl.
    destruct (listeners sc =? 0)%nat; [exact L|].
    destruct f; [exact L|].
    destruct (closeCh sc) eqn:Hc; [|exact L].
    destruct L as (L1 & L2 & L3 & L4).
    split; [exact L1|]. split; [exact L2|]. split; [exact L3|].
    simpl. intros Hic. destruct (L4 Hic) as (_ & Hcf & _). congruence.
Qed.

(** A wrapper that a step creates is the one [wrapConn] makes. *)
Lemma step_lookup_fresh (o : Op) (s : Sys) (i : nat) (sc : StraddleConn) :
  wrappers s !! i = None ->
  wrappers (step o s) !! i = Some sc ->
  exists c, sc = mkStraddleConn c (fireChAtom (coord s)) false x00 false false 0.
Proof.
  intros Hi Hs. pose proof (lookup_ge_None_1 _ _ Hi) as Hge.
  assert (Hins : forall sc', <[i := sc']> (wrappers s) !! i = None).
  { intros sc'. apply lookup_ge_None_2. rewrite length_insert. exact Hge. }
  unfold step in Hs.
  destruct o as [ | r | j b | | j | j f | ]; simpl in Hs; try congruence.
  - destruct (fired (coord s) =? 1); simpl in Hs; congruence.
  - destruct (dialing s); [congruence|].
    unfold trackDialEnd, wrapConn in Hs. destruct r as [c | e]; simpl in Hs;
      [|congruence].
    destruct (Nat.eq_dec i (length (wrappers s))) as [-> | Hne].
    + rewrite lookup_app_r in Hs by lia. rewrite Nat.sub_diag in Hs.
      simpl in Hs. injection Hs as <-. exists c. f_equal.
      unfold tryNotify. break_branches.
    + rewrite (lookup_ge_None_2 (wrappers s ++ _) i) in Hs; [discriminate|].
      rewrite length_app. simpl. lia.
  - destruct (wrappers s !! j) as [scj|] eqn:Hj; [|congruence].
    destruct (Write b scj (coord s)) as [[sc' t] r]. simpl in Hs.
    destruct (Nat.eq_dec j i) as [-> | Hne]; [congruence|].
    rewrite list_lookup_insert_ne in Hs by auto. congruence.
  - destruct (wrappers s !! j) as [scj|] eqn:Hj; [|congruence].
    destruct (Close scj (coord s)) as [[sc' t] r]. simpl in Hs.
    destruct (Nat.eq_dec j i) as [-> | Hne]; [congruence|].
    rewrite list_lookup_insert_ne in Hs by auto. congruence.
  - destruct (wrappers s !! j) as [scj|] eqn:Hj; [|congruence]. simpl in Hs.
    destruct (Nat.eq_dec j i) as [-> | Hne]; [congruence|].
    rewrite list_lookup_insert_ne in Hs by auto. congruence.
Qed.

(** In an un-fired round no broadcast channel is closed and every wrapper
    is wired to the current one. *)
Lemma reach_listening (tr : list Op) :
  traceOk tr initSys = true ->
  fired (coord (run tr initSys)) = 0 ->
  closedChs (coord (run tr initSys)) = []
  /\ Forall (Listening (fireChAtom (coord (run tr initSys))))
       (wrappers (run tr initSys)).
Proof.
  induction tr as [|o tr IH] using rev_ind; intros Hok Hf.
  - split; [reflexivity | constructor].
  - rewrite traceOk_app in Hok. apply andb_prop in Hok as [Hok Ho].
    simpl in Ho. rewrite andb_true_r in Ho.
    rewrite run_app in *. change (run [o] ?x) with (step o x) in *.
    set (s := run tr initSys) in *.
    pose proof (opOk_not_reset o s Ho) as HR.
    pose proof (step_fired_zero o s HR Hf) as Hf0.
    destruct (IH Hok Hf0) as [Hcs HL].
    assert (HF : isFire o = false).
    { destruct o; try reflexivity. unfold step in Hf. simpl in Hf.
      unfold Fire in Hf. rewrite Hf0 in Hf. simpl in Hf. discriminate. }
    destruct (step_signal o s HR HF) as (_ & S2 & S3).
    rewrite S2, S3. split; [exact Hcs|].
    apply Forall_lookup_2. intros i sc' Hi.
    destruct (wrappers s !! i) as [sc|] eqn:Hs.
    + rewrite (step_lookup o s i sc Hs) in Hi. injection Hi as <-.
      apply stepWrapper_listening; auto.
      * intros Hw. destruct o; try discriminate. simpl in Hw, Ho.
        apply Nat.eqb_eq in Hw. subst. unfold wrapperOpen in Ho.
        rewrite Hs in Ho. apply negb_true_iff in Ho. exact Ho.
      * exact (Forall_lookup_1 _ _ _ _ HL Hs).
    + destruct (step_lookup_fresh o s i sc' Hs Hi) as [c ->].
      split; [reflexivity|]. simpl.
      split; [discriminate|]. split; discriminate.
Qed.

(** X18. In every state that a well-formed schedule reaches without
    [Fire], a wrapper that withholds a byte has its listener goroutine
    waiting on the current broadcast channel, with its [closeCh] and its
    connection open.  So [Fire] reaches every withheld byte: once the
    wrapper's listener has taken its [fireCh] case afterwards, the byte
    has been written, exactly once, whatever ran in between short of a
    [Write] on the wrapper. *)
Theorem Fire_reaches_every_withheld_byte (tr : list Op) (i : nat)
        (sc : StraddleConn) :
  traceOk tr initSys = true ->
  fired (coord (run tr initSys)) = 0 ->
  wrappers (run tr initSys) !! i = Some sc ->
  hasHeld sc = true ->
  (fireCh sc = fireChAtom (coord (run tr initSys))
   /\ chanClosed (fireCh sc) (coord (run tr initSys)) = false
   /\ (0 < listeners sc)%nat
   /\ closeCh sc = false
   /\ isCounted sc = true
   /\ connClosed (Conn sc) = false)
  /\ (forall mid,
        existsb (isWriteOn i) mid = false ->
        exists sc' k,
          wrappers (run (tr ++ OpFire :: mid ++ [OpListen i true]) initSys) !! i
          = Some sc'
          /\ hasHeld sc' = false
          /\ calls (Conn sc')
             = calls (Conn sc) ++ CallWrite [held sc] :: repeat CallClose k).
Proof.
  intros Hok Hf Hi Hh.
  destruct (reach_listening tr Hok Hf) as [Hcs HL].
  destruct (Forall_lookup_1 _ _ _ _ HL Hi) as (L1 & _ & L3 & L4).
  destruct (L4 (L3 Hh)) as (Hl & Hcc & Hopen).
  split.
  - split; [exact L1|].
    split; [unfold chanClosed; rewrite Hcs; reflexivity|].
    split; [exact Hl|]. split; [exact Hcc|]. split; [exact (L3 Hh) | exact Hopen].
  - intros mid Hm. rewrite run_app.
    destruct (fire_then_listener i mid _ sc Hi Hf L1 Hl Hcc Hm)
      as (sc' & Hl' & Hh').
    assert (Hm' : existsb (isWriteOn i) (OpFire :: mid ++ [OpListen i true])
                  = false).
    { simpl. rewrite existsb_app, Hm. reflexivity. }
    destruct (delivery_run (held sc) (calls (Conn sc)) i _ _ sc Hi
                (StillHeld _ _ _ Hh eq_refl eq_refl) Hm')
      as (sc2 & Hl2 & D & _).
    rewrite Hl' in Hl2. injection Hl2 as <-.
    destruct D as [Hx _ _ | k _ Hc]; [congruence|].
    exists sc', k. auto.
Qed.

Lemma Fire_reaches_every_withheld_byte_witness :
  let tr := dialOk ++ dialOk
            ++ [OpWrite 0 [x61; x62]; OpWrite 1 [x63]; OpListen 0 true;
                OpListen 1 false; OpWrite 0 [x64]] in
  let sc := mkStraddleConn
              (mkNetConn [CallWrite [x61]; CallWrite [x62]] [x61; x62] [] None)
              0 false x64 true true 1 in
  (traceOk tr initSys = true
   /\ fired (coord (run tr initSys)) = 0
   /\ wrappers (run tr initSys) !! 0%nat = Some sc
   /\ hasHeld sc = true)
  /\ (0 < listeners sc)%nat
  /\ exists sc' k,
      wrappers (run (tr ++ [OpFire; OpClose 1; OpListen 1 true; OpListen 0 true])
                  initSys) !! 0%nat = Some sc'
      /\ hasHeld sc' = false
      /\ calls (Conn sc')
         = [CallWrite [x61]; CallWrite [x62]; CallWrite [x64]]
             ++ repeat CallClose k.
Proof.
  intros tr sc.
  assert (E : wrappers (run tr initSys) !! 0%nat = Some sc)
    by (vm_compute; reflexivity).
  assert (Hh : hasHeld sc = true) by reflexivity.
  assert (Hok : traceOk tr initSys = true) by (vm_compute; reflexivity).
  assert (Hf : fired (coord (run tr initSys)) = 0) by (vm_compute; reflexivity).
  destruct (Fire_reaches_every_withheld_byte tr 0 sc Hok Hf E Hh)
    as ((_ & _ & Hl & _) & HD).
  destruct (HD [OpClose 1; OpListen 1 true] eq_refl) as (sc' & k & H1 & H2 & H3).
  split; [repeat split; assumption|].
  split; [exact Hl|].
  exists sc', k. split; [exact H1|]. split; [exact H2 | exact H3].
Defined.

Lemma Registry_Fire_releases_all_witness :
  let t := fst (Registry.Write 0 getRequest
                  (fst (Registry.dial (freshConn []) Registry.NewTransport))) in
  exists e e',
    (Registry.heap t !! 0%nat = Some e /\ In 0%nat (Registry.conns t))
    /\ Registry.heap (Registry.settle (Registry.Fire t)) !! 0%nat = Some e'
    /\ wire (Simple.Conn (Registry.conn e')) = getRequest
    /\ Simple.hasHeld (Registry.conn e') = false.
Proof.
  intros t.
  destruct (Registry.heap t !! 0%nat) as [e|] eqn:E; [|vm_compute in E; discriminate].
  assert (Hin : In 0%nat (Registry.conns t)) by (left; reflexivity).
  destruct (proj1 (proj2 (proj2 (proj2 (Registry_Fire_releases_all t)))) 0%nat e E Hin)
    as (e' & H1 & H2 & _).
  exists e, e'. split; [split; [reflexivity | exact Hin]|].
  split; [exact H1|]. split; [|exact H2].
  vm_compute in H1. injection H1 as <-. reflexivity.
Defined.

Lemma channels_closed_once_witness :
  let tr := dialOk ++ [OpFire; OpFire; OpReset; OpDialBegin; OpReset; OpFire] in
  closedChs (coord (run tr initSys)) = [0%nat; 2%nat]
  /\ List.NoDup (closedChs (coord (run tr initSys)))
  /\ (fired (coord (run (tr ++ [OpReset]) initSys)) = 0
      /\ chanClosed (fireChAtom (coord (run (tr ++ [OpReset]) initSys)))
           (coord (run (tr ++ [OpReset]) initSys)) = false).
Proof.
  intros tr. split; [reflexivity|].
  split; [exact (proj1 (channels_closed_once tr))|].
  split; [reflexivity|].
  exact (proj2 (channels_closed_once (tr ++ [OpReset])) eq_refl).
Defined.

Lemma Wait_fresh_witness :
  (2 ^ 32 <= 0 \/ wrap32 (2 ^ 32) <= 0)
  /\ Wait (2 ^ 32) NewTransport [] = Some WaitNil
  /\ (0 < 5 /\ 0 < wrap32 5)
  /\ Wait 5 NewTransport [] = None.
Proof.
  assert (H1 : 2 ^ 32 <= 0 \/ wrap32 (2 ^ 32) <= 0) by (right; discriminate).
  assert (H2 : 0 < 5 /\ 0 < wrap32 5) by (split; reflexivity).
  split; [exact H1|].
  split; [exact (proj2 (proj1 (Wait_fresh (2 ^ 32))) H1)|].
  split; [exact H2|].
  exact (proj2 (proj2 (Wait_fresh 5)) H2).
Defined.
